(** * Quiz session engine ([QuizEngine] of quiz.py)

    A shallow embedding of the class [QuizEngine] (quiz.py, lines 68-141) and
    the properties of its specification.

    Conventions of the embedding.
    - A question is the dictionary built by [APIHandler._parse_questions]:
      always the same five keys, so a record.
    - Python integers that only count upwards from 0 ([current_question],
      [score], the result of [list.index]) are [nat]; the answer index comes
      from the caller and may be negative, so it is a [Z].
    - A Python float (an elapsed time, the percentage) is carried by the
      rational number it denotes, a [Q]. The operations that make a float
      out of exact operands round as binary64 does, to the nearest double and
      to the even one of two nearest ([Float64.round64]): the true division
      of two ints and of a float by an int, the product of a float and an
      int, the additions of [sum]. The difference of two clock readings is
      written without rounding: the readings of one session lie within a
      factor two of each other, where the binary64 difference is exact.
      Infinities and NaN are not carried; the division of two ints raises
      [OverflowError] where the quotient is beyond the largest double.
    - [time.time()] is an input: the operations that read the clock take the
      reading as the argument [now].
    - [random] is a global generator: it is a component of the world next to
      the engine object, and [random.shuffle] threads it.
    - A Python exception is an outcome [Raise]; the state reached when the
      exception is raised is kept, as in Python.
    - The methods are first written over values. [get_current_question],
      the one method that updates lists and dictionaries in place, is then
      written again over a store of objects with references ([Store]), and
      shown to return the same question and to leave every stored object
      as it was. *)

From Stdlib Require Import ZArith QArith Qround Qabs Qpower Lia Lqa Sorted.
From Stdlib Require Floats.SpecFloat.
From stdpp Require Import base list strings functions.

Local Open Scope Z_scope.
Local Open Scope nat_scope.

(** ** Data model *)

Module Question.
(** The dictionary of [_parse_questions] (quiz.py, lines 57-63). *)
Record t := mk {
  question : string;
  correct_answer : string;
  incorrect_answers : list string;
  category : string;
  difficulty : string
}.
End Question.

Module Presented.
(** The dictionary returned by [get_current_question]: the shallow copy of
    the stored question ([base]) with the two keys added to the copy. *)
Record t := mk {
  base : Question.t;
  shuffled_answers : list string;
  correct_index : nat
}.
End Presented.

Module Answer.
(** The dictionary appended to [user_answers] (quiz.py, lines 114-120). *)
Record t := mk {
  question : string;
  user_answer : string;
  correct_answer : string;
  is_correct : bool;
  time_taken : Q
}.
End Answer.

Module Results.
(** The dictionary returned by [get_final_results] (lines 134-141). *)
Record t := mk {
  score : nat;
  total_questions : nat;
  percentage : Q;
  total_time : Q;
  average_time_per_question : Q;
  user_answers : list Answer.t
}.
End Results.

(** The attributes of a [QuizEngine] object. *)
Record QuizEngine := mkEngine {
  questions : list Question.t;
  current_question : nat;
  score : nat;
  start_time : option Q;
  question_times : list Q;
  user_answers : list Answer.t
}.

(** The state of the generator of module [random]: the raw draws it will
    deliver and how many were consumed. Every behaviour of the generator is
    some [draws]. *)
Record Rng := mkRng {
  draws : nat -> nat;
  cursor : nat
}.

Record world := mkWorld {
  engine : QuizEngine;
  rng : Rng
}.

(** ** Exceptions and the state monad of the methods *)

Inductive exn :=
  IndexError | ValueError | ZeroDivisionError | OverflowError | TypeError
| KeyError.

Inductive outcome (A : Type) :=
| Ret (a : A)
| Raise (e : exn).
Arguments Ret {A} a.
Arguments Raise {A} e.

Definition M (A : Type) : Type := world -> outcome A * world.

Definition ret {A} (a : A) : M A := fun w => (Ret a, w).

Definition raise {A} (e : exn) : M A := fun w => (Raise e, w).

Definition bind {A B} (m : M A) (k : A -> M B) : M B :=
  fun w =>
    match m w with
    | (Ret a, w') => k a w'
    | (Raise e, w') => (Raise e, w')
    end.

Definition lift {A} (o : outcome A) : M A := fun w => (o, w).

Definition get_self : M QuizEngine := fun w => (Ret (engine w), w).

Definition set_self (f : QuizEngine -> QuizEngine) : M unit :=
  fun w => (Ret tt, {| engine := f (engine w); rng := rng w |}).

#[global] Instance M_ret : MRet M := @ret.
#[global] Instance M_bind : MBind M := fun A B k m => bind m k.

(** ** Python primitives used by the engine *)

(** [xs[i]]: a negative index counts from the end; out of range raises. *)
Definition py_getitem {A} (xs : list A) (i : Z) : outcome A :=
  let n := Z.of_nat (length xs) in
  let k := if (i <? 0)%Z then (i + n)%Z else i in
  if ((k <? 0)%Z || (n <=? k)%Z)%bool then Raise IndexError
  else match xs !! Z.to_nat k with
       | Some a => Ret a
       | None => Raise IndexError
       end.

(** [xs.index(x)]: the first position holding a value equal to [x]. *)
Fixpoint index_from `{EqDecision A} (x : A) (xs : list A) (i : nat)
    : outcome nat :=
  match xs with
  | [] => Raise ValueError
  | y :: ys => if decide (y = x) then Ret i else index_from x ys (S i)
  end.

Definition py_index `{EqDecision A} (x : A) (xs : list A) : outcome nat :=
  index_from x xs 0.

(** ** Floats

    The value of a float operation is the exact result rounded to binary64:
    53 significant bits, the nearest value and the even one on a tie,
    subnormal below [2^-1022]. *)

Module Float64.

(** [floor(log2 x)] for [x > 0]: the [k] with [2^k <= x < 2^(k+1)]. It is
    the difference of the bit lengths of numerator and denominator, or one
    less. *)
Definition ilog2 (x : Q) : Z :=
  let d := (Z.log2 (Qnum x) - Z.log2 (Zpos (Qden x)))%Z in
  if Qle_bool (2 ^ d) x then d else (d - 1)%Z.

(** The nearest integer, the even one of two that are equally near. *)
Definition round_half_even (y : Q) : Z :=
  let f := Qfloor y in
  match Qcompare (y - inject_Z f) (1 # 2) with
  | Lt => f
  | Gt => (f + 1)%Z
  | Eq => if Z.even f then f else (f + 1)%Z
  end.

(** The exponent of the unit in the last place at [x]: 52 binary places
    below the leading bit, and never below the spacing [2^-1074] of the
    subnormal numbers. *)
Definition ulp_exp (x : Q) : Z := Z.max (ilog2 (Qabs x) - 52) (-1074).

(** The double nearest to [x] (with no bound on the exponent above), in
    lowest terms. *)
Definition round64 (x : Q) : Q :=
  let x := Qred x in
  if Qeq_bool x 0 then 0%Q
  else Qred (inject_Z (round_half_even (x / 2 ^ ulp_exp x)) * 2 ^ ulp_exp x).

(** Beyond the largest double: [2^1024] or more in magnitude. *)
Definition overflows (x : Q) : bool := Qle_bool (2 ^ 1024) (Qabs x).

(** The number that a finite value of the standard library's binary64
    denotes, and its binary64 of an integer. *)
Definition SF2Q (f : SpecFloat.spec_float) : Q :=
  match f with
  | SpecFloat.S754_finite s m e =>
      (inject_Z (if s then Z.neg m else Z.pos m) * 2 ^ e)%Q
  | _ => 0%Q
  end.

Definition SFofZ (z : Z) : SpecFloat.spec_float :=
  SpecFloat.binary_normalize 53 1024 z 0 false.

End Float64.

(** [float(n)] of an int. *)
Definition py_float (n : Z) : Q := Float64.round64 (inject_Z n).

(** [a / b] on two ints: the quotient of the integers, rounded once. *)
Definition int_truediv (a b : Z) : outcome Q :=
  if (b =? 0)%Z then Raise ZeroDivisionError
  else let q := Float64.round64 (inject_Z a / inject_Z b) in
       if Float64.overflows q then Raise OverflowError else Ret q.

(** [x / n], a float by an int: the int is made a float first. (A length
    is below [2^63] and makes a float without overflow.) *)
Definition float_truediv (x : Q) (n : Z) : outcome Q :=
  let y := py_float n in
  if Qeq_bool y 0 then Raise ZeroDivisionError
  else Ret (Float64.round64 (x / y)).

(** [x * n], a float by an int. *)
Definition float_mul (x : Q) (n : Z) : Q := Float64.round64 (x * py_float n).

(** [x + y] on floats. *)
Definition float_add (x y : Q) : Q := Float64.round64 (x + y).

(** [sum(xs)] on floats: from the int 0, one addition per item. (CPython
    from 3.12 on carries a correction term along; it changes the result
    only where these additions round.) *)
Definition py_sum (xs : list Q) : Q := fold_left float_add xs 0%Q.

(** ** module [random] *)

(** [Random._randbelow(n)], for [n > 0]: a value in [range(n)]. *)
Definition randbelow (n : nat) (g : Rng) : nat * Rng :=
  (draws g (cursor g) mod n, {| draws := draws g; cursor := S (cursor g) |}).

(** [x[i], x[j] = x[j], x[i]]: both reads, then the two stores in order;
    an index outside the list raises. *)
Definition swap {A} (i j : nat) (x : list A) : outcome (list A) :=
  match x !! j, x !! i with
  | Some xj, Some xi => Ret (<[j:=xi]> (<[i:=xj]> x))
  | _, _ => Raise IndexError
  end.

(** The loop of [Random.shuffle] in CPython's random.py:
    [for i in reversed(range(1, len(x))): j = randbelow(i + 1); swap]. *)
Fixpoint shuffle_loop {A} (i : nat) (x : list A) (g : Rng)
    : outcome (list A) * Rng :=
  match i with
  | 0 => (Ret x, g)
  | S i' =>
      let (j, g') := randbelow (S i) g in
      match swap i j x with
      | Ret x' => shuffle_loop i' x' g'
      | Raise e => (Raise e, g')
      end
  end.

Definition shuffle {A} (x : list A) (g : Rng) : outcome (list A) * Rng :=
  shuffle_loop (length x - 1) x g.

(** [random.shuffle(x)] on the global generator; the list is returned
    because this part of the model has no store: in [get_current_question]
    the shuffled list is the new list built by [+], which nothing else
    references. *)
Definition random_shuffle {A} (x : list A) : M (list A) :=
  fun w =>
    let (x', g') := shuffle x (rng w) in
    (x', {| engine := engine w; rng := g' |}).

(** ** class [QuizEngine] *)

(** [__init__] (lines 70-76). *)
Definition init : QuizEngine :=
  {| questions := []; current_question := 0; score := 0;
     start_time := None; question_times := []; user_answers := [] |}.

(** [load_questions] (lines 78-85); [now] is the value of [time.time()]. *)
Definition load_questions (qs : list Question.t) (now : Q) : M unit :=
  set_self (fun _ =>
    {| questions := qs; current_question := 0; score := 0;
       start_time := Some now; question_times := []; user_answers := [] |}).

(** [get_current_question] (lines 87-100). [question] is the shallow copy
    of the stored dictionary and [all_answers] the new list built by [+]:
    the shuffle and the two stores of lines 97-98 act on these, so the
    stored question is not touched and the copy is returned as a value. *)
Definition get_current_question : M (option Presented.t) :=
  self ← get_self;
  if length (questions self) <=? current_question self then ret None
  else
    question ← lift (py_getitem (questions self)
                                 (Z.of_nat (current_question self)));
    all_answers ← random_shuffle (Question.incorrect_answers question
                                   ++ [Question.correct_answer question]);
    correct_index ← lift (py_index (Question.correct_answer question)
                                    all_answers);
    ret (Some {| Presented.base := question;
                 Presented.shuffled_answers := all_answers;
                 Presented.correct_index := correct_index |}).

(** [submit_answer] (lines 102-125). The score is incremented (line 111)
    before the answer text is read (line 116), which is where an index
    outside the list raises. [None['correct_index']] would be a
    [TypeError]. *)
Definition submit_answer (answer_index : Z) (time_taken : Q) : M bool :=
  self ← get_self;
  if length (questions self) <=? current_question self then ret false
  else
    current ← get_current_question;
    match current with
    | None => raise TypeError
    | Some question =>
        let is_correct :=
          (answer_index =? Z.of_nat (Presented.correct_index question))%Z in
        (if is_correct
         then set_self (fun s =>
                {| questions := questions s;
                   current_question := current_question s;
                   score := score s + 1;
                   start_time := start_time s;
                   question_times := question_times s;
                   user_answers := user_answers s |})
         else ret tt) ;;
        user_answer ← lift (py_getitem (Presented.shuffled_answers question)
                                        answer_index);
        set_self (fun s =>
          {| questions := questions s;
             current_question := current_question s;
             score := score s;
             start_time := start_time s;
             question_times := question_times s;
             user_answers := user_answers s ++
               [ {| Answer.question :=
                      Question.question (Presented.base question);
                    Answer.user_answer := user_answer;
                    Answer.correct_answer :=
                      Question.correct_answer (Presented.base question);
                    Answer.is_correct := is_correct;
                    Answer.time_taken := time_taken |} ] |}) ;;
        set_self (fun s =>
          {| questions := questions s;
             current_question := current_question s;
             score := score s;
             start_time := start_time s;
             question_times := question_times s ++ [time_taken];
             user_answers := user_answers s |}) ;;
        set_self (fun s =>
          {| questions := questions s;
             current_question := current_question s + 1;
             score := score s;
             start_time := start_time s;
             question_times := question_times s;
             user_answers := user_answers s |}) ;;
        ret is_correct
    end.

(** [get_progress] (lines 127-128). *)
Definition get_progress : M (nat * nat) :=
  self ← get_self;
  ret (current_question self, length (questions self)).

(** [get_final_results] (lines 130-141); [now] is the value of
    [time.time()]. [self.start_time] is false when it is [None] or [0.0];
    a list is false when it is empty. The score and the lengths are ints:
    [score / len] is a division of two ints, [sum / len] of a float by an
    int, and [* 100] the product of a float and an int. *)
Definition get_final_results (now : Q) : M Results.t :=
  self ← get_self;
  let total_time :=
    match start_time self with
    | Some t => if Qeq_bool t 0 then 0%Q else (now - t)%Q
    | None => 0%Q
    end in
  avg_time ← match question_times self with
              | [] => ret 0%Q
              | _ :: _ =>
                  lift (float_truediv
                          (py_sum (question_times self))
                          (Z.of_nat (length (question_times self))))
              end;
  percentage ← match questions self with
                | [] => ret 0%Q
                | _ :: _ =>
                    ratio ← lift (int_truediv
                                    (Z.of_nat (score self))
                                    (Z.of_nat (length (questions self))));
                    ret (float_mul ratio 100)
                end;
  ret {| Results.score := score self;
         Results.total_questions := length (questions self);
         Results.percentage := percentage;
         Results.total_time := total_time;
         Results.average_time_per_question := avg_time;
         Results.user_answers := user_answers self |}.

(** ** Calls of the presentation layer

    A session is a sequence of calls on one engine. The calls other than
    [load_questions] are the ones made inside a session. A call that raises
    leaves the world as it was when the exception was raised. *)

Inductive session_call :=
| GetCurrentQuestion
| SubmitAnswer (answer_index : Z) (time_taken : Q)
| GetProgress
| GetFinalResults (now : Q).

Inductive call :=
| LoadQuestions (qs : list Question.t) (now : Q)
| InSession (c : session_call).

Definition exec_session (c : session_call) (w : world) : world :=
  match c with
  | GetCurrentQuestion => snd (get_current_question w)
  | SubmitAnswer answer_index time_taken =>
      snd (submit_answer answer_index time_taken w)
  | GetProgress => snd (get_progress w)
  | GetFinalResults now => snd (get_final_results now w)
  end.

Definition exec (c : call) (w : world) : world :=
  match c with
  | LoadQuestions qs now => snd (load_questions qs now w)
  | InSession c => exec_session c w
  end.

Definition run_session (cs : list session_call) (w : world) : world :=
  fold_left (fun w c => exec_session c w) cs w.

Definition run (cs : list call) (w : world) : world :=
  fold_left (fun w c => exec c w) cs w.

(** The number of answers recorded as correct. *)
Definition count_correct (l : list Answer.t) : nat :=
  length (List.filter Answer.is_correct l).

(** What [submit_answer] stores for a question, given the text it recorded
    as the user's answer. *)
Definition answer_record (p : Presented.t) (user_answer : string)
    (is_correct : bool) (time_taken : Q) : Answer.t :=
  {| Answer.question := Question.question (Presented.base p);
     Answer.user_answer := user_answer;
     Answer.correct_answer := Question.correct_answer (Presented.base p);
     Answer.is_correct := is_correct;
     Answer.time_taken := time_taken |}.

(** The engine after a graded submission. *)
Definition graded (e : QuizEngine) (a : Answer.t) : QuizEngine :=
  {| questions := questions e;
     current_question := current_question e + 1;
     score := if Answer.is_correct a then score e + 1 else score e;
     start_time := start_time e;
     question_times := question_times e ++ [Answer.time_taken a];
     user_answers := user_answers e ++ [a] |}.

(** The answers as [get_current_question] builds them before shuffling. *)
Definition all_answers (q : Question.t) : list string :=
  Question.incorrect_answers q ++ [Question.correct_answer q].

(** The bookkeeping that holds between the counters and the logs. *)
Definition consistent (e : QuizEngine) : Prop :=
  score e = count_correct (user_answers e)
  /\ length (user_answers e) = current_question e
  /\ length (question_times e) = current_question e
  /\ current_question e <= length (questions e).

(** ** [get_current_question] on a store of objects

    [get_current_question] is the one method that updates objects in place
    (the shuffle, and the two keys it adds to a dictionary) next to objects
    that stay referenced from the engine. Here it is written once more over
    an explicit store of lists and dictionaries, with references, so that
    what is shared and what is new can be told apart. *)

Module Store.

Definition addr := nat.

(** What a variable, a list slot or a dictionary entry holds. *)
Inductive value :=
| VNone
| VInt (n : nat)
| VStr (s : string)
| VRef (a : addr).

#[global] Instance value_eq_dec : EqDecision value.
Proof. solve_decision. Defined.

(** The mutable objects. A dictionary keeps its keys in insertion order. *)
Inductive object :=
| OList (items : list value)
| ODict (entries : list (string * value)).

(** Objects by address; the addresses below [next] are allocated. *)
Record heap := mkHeap {
  cells : addr -> object;
  next : addr
}.

(** The attributes of the engine object. [questions] is a reference to the
    list handed to [load_questions]; the attributes that
    [get_current_question] never reads are kept as plain values. *)
Record engine_obj := mkObj {
  questions : addr;
  current_question : nat;
  score : nat;
  start_time : option Q;
  question_times : list Q;
  user_answers : list Answer.t
}.

Record state := mkState {
  mem : heap;
  self : engine_obj;
  rng : Rng
}.

Definition St (A : Type) : Type := state -> outcome A * state.

#[global] Instance St_ret : MRet St := fun A a s => (Ret a, s).

#[global] Instance St_bind : MBind St := fun A B k m s =>
  match m s with
  | (Ret a, s') => k a s'
  | (Raise e, s') => (Raise e, s')
  end.

Definition raise {A} (e : exn) : St A := fun s => (Raise e, s).

Definition lift {A} (o : outcome A) : St A := fun s => (o, s).

Definition get_self : St engine_obj := fun s => (Ret (self s), s).

(** A new object, at the first free address. *)
Definition alloc (o : object) : St addr :=
  fun s =>
    (Ret (next (mem s)),
     {| mem := {| cells := <[next (mem s) := o]> (cells (mem s));
                  next := S (next (mem s)) |};
        self := self s; rng := rng s |}).

Definition read (a : addr) : St object :=
  fun s => (Ret (cells (mem s) a), s).

(** Update in place of the object at [a]. *)
Definition write (a : addr) (o : object) : St unit :=
  fun s =>
    (Ret tt,
     {| mem := {| cells := <[a := o]> (cells (mem s));
                  next := next (mem s) |};
        self := self s; rng := rng s |}).

(** The items of the list that [v] refers to. *)
Definition list_items (v : value) : St (list value) :=
  match v with
  | VRef a =>
      o ← read a;
      match o with
      | OList items => mret items
      | ODict _ => raise TypeError
      end
  | _ => raise TypeError
  end.

(** The entries of the dictionary that [v] refers to. *)
Definition dict_entries (v : value) : St (list (string * value)) :=
  match v with
  | VRef a =>
      o ← read a;
      match o with
      | ODict entries => mret entries
      | OList _ => raise TypeError
      end
  | _ => raise TypeError
  end.

Fixpoint assoc_get (k : string) (es : list (string * value))
    : outcome value :=
  match es with
  | [] => Raise KeyError
  | (k', v) :: es => if decide (k' = k) then Ret v else assoc_get k es
  end.

Fixpoint assoc_set (k : string) (v : value) (es : list (string * value))
    : list (string * value) :=
  match es with
  | [] => [(k, v)]
  | (k', v') :: es =>
      if decide (k' = k) then (k, v) :: es else (k', v') :: assoc_set k v es
  end.

(** [d[k]] *)
Definition dict_getitem (d : addr) (k : string) : St value :=
  entries ← dict_entries (VRef d);
  lift (assoc_get k entries).

(** [d[k] = v] *)
Definition dict_setitem (d : addr) (k : string) (v : value) : St unit :=
  entries ← dict_entries (VRef d);
  write d (ODict (assoc_set k v entries)).

(** [d.copy()]: a new dictionary with the same entries; the values, and so
    the list of incorrect answers, are shared with [d]. *)
Definition dict_copy (d : value) : St addr :=
  entries ← dict_entries d;
  alloc (ODict entries).

(** [xs + [v]]: a new list. *)
Definition list_add (xs : value) (v : value) : St addr :=
  items ← list_items xs;
  alloc (OList (items ++ [v])).

(** The generator permutes [items]. *)
Definition shuffled (items : list value) : St (list value) :=
  fun s =>
    let (items', g') := shuffle items (rng s) in
    (items', {| mem := mem s; self := self s; rng := g' |}).

(** [random.shuffle(x)]: permutes the list at [x] in place. *)
Definition random_shuffle (x : addr) : St unit :=
  items ← list_items (VRef x);
  items' ← shuffled items;
  write x (OList items').

(** [xs.index(v)]. Values are compared as such, a reference with a
    reference by address; in the engine both sides are strings. *)
Definition list_index (xs : addr) (v : value) : St nat :=
  items ← list_items (VRef xs);
  lift (py_index v items).

(** [get_current_question] (lines 87-100), object by object. *)
Definition get_current_question : St value :=
  self ← get_self;
  stored_questions ← list_items (VRef (questions self));
  if length stored_questions <=? current_question self then mret VNone
  else
    stored ← lift (py_getitem stored_questions
                              (Z.of_nat (current_question self)));
    question ← dict_copy stored;
    incorrect ← dict_getitem question "incorrect_answers";
    correct ← dict_getitem question "correct_answer";
    all_answers ← list_add incorrect correct;
    random_shuffle all_answers;;
    dict_setitem question "shuffled_answers" (VRef all_answers);;
    correct ← dict_getitem question "correct_answer";
    correct_index ← list_index all_answers correct;
    dict_setitem question "correct_index" (VInt correct_index);;
    mret (VRef question).

(** The entries of a question dictionary as [_parse_questions] builds it
    (lines 57-63), with the list of incorrect answers at [incorrect]. *)
Definition question_entries (q : Question.t) (incorrect : addr)
    : list (string * value) :=
  [("question"%string, VStr (Question.question q));
   ("correct_answer"%string, VStr (Question.correct_answer q));
   ("incorrect_answers"%string, VRef incorrect);
   ("category"%string, VStr (Question.category q));
   ("difficulty"%string, VStr (Question.difficulty q))].

(** Building the dictionary of one question, and of a list of them. *)
Definition new_question (q : Question.t) : St value :=
  incorrect ← alloc (OList (VStr <$> Question.incorrect_answers q));
  d ← alloc (ODict (question_entries q incorrect));
  mret (VRef d).

Fixpoint new_questions (qs : list Question.t) : St (list value) :=
  match qs with
  | [] => mret []
  | q :: qs =>
      v ← new_question q;
      vs ← new_questions qs;
      mret (v :: vs)
  end.

Definition empty_heap : heap :=
  {| cells := fun _ => OList []; next := 0 |}.

End Store.

(** [v] refers to a stored dictionary holding the question [q]. *)
Definition question_at (h : Store.heap) (v : Store.value) (q : Question.t)
    : Prop :=
  exists d l,
    v = Store.VRef d /\ d < Store.next h /\ l < Store.next h
    /\ Store.cells h d = Store.ODict (Store.question_entries q l)
    /\ Store.cells h l
       = Store.OList (Store.VStr <$> Question.incorrect_answers q).

(** [v] refers to a dictionary holding the presented question [p]. *)
Definition presented_at (h : Store.heap) (v : Store.value) (p : Presented.t)
    : Prop :=
  exists d l l',
    v = Store.VRef d
    /\ Store.cells h d
       = Store.ODict
           (Store.question_entries (Presented.base p) l
            ++ [("shuffled_answers"%string, Store.VRef l');
                ("correct_index"%string,
                 Store.VInt (Presented.correct_index p))])
    /\ Store.cells h l'
       = Store.OList (Store.VStr <$> Presented.shuffled_answers p).

(** The store-level state [s] holds the world [w]. *)
Definition represents (s : Store.state) (w : world) : Prop :=
  Store.questions (Store.self s) < Store.next (Store.mem s)
  /\ (exists vs,
        Store.cells (Store.mem s) (Store.questions (Store.self s))
        = Store.OList vs
        /\ Forall2 (question_at (Store.mem s)) vs (questions (engine w)))
  /\ Store.current_question (Store.self s) = current_question (engine w)
  /\ Store.score (Store.self s) = score (engine w)
  /\ Store.start_time (Store.self s) = start_time (engine w)
  /\ Store.question_times (Store.self s) = question_times (engine w)
  /\ Store.user_answers (Store.self s) = user_answers (engine w)
  /\ Store.rng s = rng w.

(** A store holding [w]: the question dictionaries, then the list of them. *)
Definition embed (w : world) : Store.state :=
  let s0 := {| Store.mem := Store.empty_heap;
               Store.self :=
                 {| Store.questions := 0;
                    Store.current_question := current_question (engine w);
                    Store.score := score (engine w);
                    Store.start_time := start_time (engine w);
                    Store.question_times := question_times (engine w);
                    Store.user_answers := user_answers (engine w) |};
               Store.rng := rng w |} in
  let (vs, s1) := Store.new_questions (questions (engine w)) s0 in
  match vs with
  | Ret vs =>
      {| Store.mem :=
           {| Store.cells :=
                <[Store.next (Store.mem s1) := Store.OList vs]>
                  (Store.cells (Store.mem s1));
              Store.next := S (Store.next (Store.mem s1)) |};
         Store.self :=
           {| Store.questions := Store.next (Store.mem s1);
              Store.current_question := current_question (engine w);
              Store.score := score (engine w);
              Store.start_time := start_time (engine w);
              Store.question_times := question_times (engine w);
              Store.user_answers := user_answers (engine w) |};
         Store.rng := rng w |}
  | Raise _ => s1
  end.

(** What was allocated below [n] is untouched, and so is the engine. *)
Definition frame (n : Store.addr) (s s' : Store.state) : Prop :=
  Store.self s' = Store.self s
  /\ Store.next (Store.mem s) <= Store.next (Store.mem s')
  /\ forall a, a < n ->
       Store.cells (Store.mem s') a = Store.cells (Store.mem s) a.

(** [m] keeps the objects below [n] and, when it returns, returns a value
    satisfying [post]. *)
Definition keeps (n : Store.addr) {A} (m : Store.St A) (post : A -> Prop)
    : Prop :=
  forall s, n <= Store.next (Store.mem s) ->
    frame n s (snd (m s))
    /\ match fst (m s) with
       | Ret a => post a
       | Raise _ => True
       end.

(** ** A sample session *)

Local Open Scope string_scope.

Definition q_capital : Question.t :=
  {| Question.question := "What is the capital of France?";
     Question.correct_answer := "Paris";
     Question.incorrect_answers := ["Rome"; "Madrid"; "Berlin"];
     Question.category := "Geography";
     Question.difficulty := "easy" |}.

Definition q_planet : Question.t :=
  {| Question.question := "Which planet is known as the Red Planet?";
     Question.correct_answer := "Mars";
     Question.incorrect_answers := ["Venus"; "Jupiter"; "Saturn"];
     Question.category := "Science";
     Question.difficulty := "medium" |}.

Definition q_author : Question.t :=
  {| Question.question := "Who wrote Hamlet?";
     Question.correct_answer := "Shakespeare";
     Question.incorrect_answers := ["Marlowe"; "Jonson"; "Milton"];
     Question.category := "Literature";
     Question.difficulty := "hard" |}.

Definition sample_questions : list Question.t :=
  [q_capital; q_planet; q_author].

(** A generator whose [n]-th raw draw is [5 * n + 2]. *)
Definition sample_rng : Rng := {| draws := fun n => 5 * n + 2; cursor := 0 |}.

(** A new engine, then [load_questions(sample_questions)] at time 10. *)
Definition fresh_world : world := {| engine := init; rng := sample_rng |}.

Definition sample_world : world :=
  snd (load_questions sample_questions 10%Q fresh_world).

(** The three questions answered: the first correctly, the second with the
    sentinel of a timeout, the third correctly. Each index is read off the
    shuffle that [submit_answer] derives in that state. *)
Definition sample_answers : list session_call :=
  [SubmitAnswer 0 (3 # 2); SubmitAnswer (-1) 30; SubmitAnswer 1 (5 # 2)].

Definition finished_world : world := run_session sample_answers sample_world.

Local Close Scope string_scope.

(** ** The answer history against the question list *)

(** The record [a] is one that [submit_answer] can store for the question
    [q]: its texts are those of [q], the answer it names is one of the
    answers of [q], and it is marked correct only with the correct text. *)
Definition record_of (q : Question.t) (a : Answer.t) : Prop :=
  Answer.question a = Question.question q
  /\ Answer.correct_answer a = Question.correct_answer q
  /\ Answer.user_answer a ∈ all_answers q
  /\ (Answer.is_correct a = true ->
      Answer.user_answer a = Answer.correct_answer a).

(** One record per answered question, in order, and one time per record. *)
Definition aligned (e : QuizEngine) : Prop :=
  Forall2 record_of (take (current_question e) (questions e))
          (user_answers e)
  /\ question_times e = Answer.time_taken <$> user_answers e.

(** A session in which every question runs out of time: one call of
    [submit_answer(-1, t)] per elapsed time. *)
Definition timeouts (ts : list Q) : list session_call :=
  SubmitAnswer (-1) <$> ts.

(** ** The command-line caller of [submit_answer]

    Two fragments of [CLIInterface._play_quiz]: how the timed branch turns
    what the user typed into an answer index (lines 335-343), and how the
    index is handed to the engine (lines 350-358). [int] is Python's
    [int()] on strings, [None] standing for [ValueError]. *)

Module CLI.

(** The lines these fragments print. *)
Inductive printed :=
| TimesUp
| SaidCorrect
| SaidWrong (correct_answer : string)
| SaidInvalid.

(** Lines 335-343: [user_input] is the stripped line, [elapsed] the time it
    took, [time_limit] the integer limit in seconds. *)
Definition timed_answer_index (int : string -> option Z)
    (time_limit : Z) (user_input : string) (elapsed : Q)
    : list printed * Z :=
  if Qle_bool elapsed (inject_Z time_limit)
  then match int user_input with
       | Some value => ([], (value - 1)%Z)
       | None => ([], (-1)%Z)
       end
  else ([TimesUp], (-1)%Z).

(** Lines 350-358: [question_data] is the question that was displayed. *)
Definition grade (question_data : Presented.t) (answer_index : Z)
    (elapsed : Q) : M printed :=
  if ((0 <=? answer_index)%Z && (answer_index <? 4)%Z)%bool
  then
    is_correct ← submit_answer answer_index elapsed;
    if is_correct : bool then ret SaidCorrect
    else ret (SaidWrong
                (Question.correct_answer (Presented.base question_data)))
  else
    submit_answer (-1) elapsed;;
    ret SaidInvalid.

(** [int()] on the one-character strings ["0"] to ["9"]; every other string
    is refused here. Used to run the fragments on examples. *)
Definition int_digit (s : string) : option Z :=
  match s with
  | String c EmptyString =>
      let n := Ascii.nat_of_ascii c in
      if (48 <=? n) && (n <=? 57) then Some (Z.of_nat (n - 48)) else None
  | _ => None
  end.

End CLI.

(** ** class [Utilities]: the two input loops

    [validate_number_input] (lines 147-156) and [validate_choice_input]
    (lines 159-164) loop on [input(prompt)] until a line is accepted. The
    console is the list of the lines still to be read; [input] prints the
    prompt, takes the first line, and raises [EOFError] when there is none,
    which neither loop catches. Each turn of a loop reads one line, so the
    loops are recursions on that list. [int], [strip] and [lower] are
    Python's [int()], [str.strip] and [str.lower]. *)

Module Console.

(** What the loops print. *)
Inductive printed :=
| Prompt (text : string)
| RangeHint (min_val max_val : Z)
| NumberHint
| ChoiceHint (valid_choices : list string).

(** How a loop ends. *)
Inductive ending (A : Type) :=
| Returned (a : A)
| EOFError.
Arguments Returned {A} a.
Arguments EOFError {A}.

(** A run of a loop: how it ended, the lines left unread, what it printed. *)
Record run (A : Type) := mkRun {
  ended : ending A;
  unread : list string;
  output : list printed
}.
Arguments mkRun {A} ended unread output.
Arguments ended {A} r.
Arguments unread {A} r.
Arguments output {A} r.

(** One more turn before the run [r]: the turn printed [out]. *)
Definition after {A} (out : list printed) (r : run A) : run A :=
  {| ended := ended r; unread := unread r; output := out ++ output r |}.

Section Loops.
Context (int : string -> option Z) (strip lower : string -> string).

(** [min_val <= value <= max_val] for the value of a line. *)
Definition in_range (min_val max_val : Z) (line : string) : bool :=
  match int line with
  | Some value => (min_val <=? value)%Z && (value <=? max_val)%Z
  | None => false
  end.

Fixpoint validate_number_input (prompt : string) (min_val max_val : Z)
    (stdin : list string) : run Z :=
  match stdin with
  | [] => {| ended := EOFError; unread := []; output := [Prompt prompt] |}
  | line :: stdin =>
      match int line with
      | Some value =>
          if ((min_val <=? value)%Z && (value <=? max_val)%Z)%bool
          then {| ended := Returned value; unread := stdin;
                  output := [Prompt prompt] |}
          else after [Prompt prompt; RangeHint min_val max_val]
                     (validate_number_input prompt min_val max_val stdin)
      | None =>
          after [Prompt prompt; NumberHint]
                (validate_number_input prompt min_val max_val stdin)
      end
  end.

Fixpoint validate_choice_input (prompt : string)
    (valid_choices : list string) (stdin : list string) : run string :=
  match stdin with
  | [] => {| ended := EOFError; unread := []; output := [Prompt prompt] |}
  | line :: stdin =>
      let choice := lower (strip line) in
      if bool_decide (choice ∈ valid_choices)
      then {| ended := Returned choice; unread := stdin;
              output := [Prompt prompt] |}
      else after [Prompt prompt; ChoiceHint valid_choices]
                 (validate_choice_input prompt valid_choices stdin)
  end.

End Loops.

End Console.

(** ** The score file and the high scores

    [Utilities.save_score] (lines 167-193) and
    [Utilities.display_high_scores] (lines 196-216; the very same ranking is
    in [GUIInterface.show_high_scores], lines 871-877). The score file is
    either missing or holds a JSON list of score entries, each with the
    five keys that [save_score] writes; [json.dump] followed by [json.load]
    gives the list back. A percentage and a time are numbers, compared as
    numbers. *)

Module Scores.

(** The dictionary [score_entry] (lines 177-183). *)
Record entry := mk {
  date : string;
  score : nat;
  total_questions : nat;
  percentage : Q;
  total_time : Q
}.

(** The file: [None] when [open] raises [FileNotFoundError]. *)
Definition file := option (list entry).

(** What the two functions print. In [Line] the entry stands for the text
    formatted from it, and [when] for its formatted date. *)
Inductive printed :=
| Saved
| NoScoresFile
| NoScoresFound
| Heading (top_n : Z)
| Line (rank : nat) (e : entry) (when : string)
| ErrorLoading.

(** [save_score]: [now] is [datetime.now().isoformat()]. *)
Definition save_score (results : Results.t) (now : string) (f : file)
    : file * list printed :=
  let scores := match f with
                | Some scores => scores
                | None => []
                end in
  let score_entry :=
    {| date := now;
       score := Results.score results;
       total_questions := Results.total_questions results;
       percentage := Results.percentage results;
       total_time := Results.total_time results |} in
  (Some (scores ++ [score_entry]), [Saved]).

(** [key(a) < key(b)] for the key [(x['percentage'], -x['total_time'])]:
    tuples compare by their first components, and by the second ones when
    the first are equal. *)
Definition key_lt (a b : entry) : bool :=
  if Qeq_bool (percentage a) (percentage b)
  then negb (Qle_bool (- total_time b) (- total_time a))
  else negb (Qle_bool (percentage b) (percentage a)).

(** [sorted(scores, key=..., reverse=True)]: by decreasing key, entries of
    equal key in the order they had in [scores] (the sort is stable, also
    when reversed). Written as an insertion sort; the result of a stable
    sort does not depend on how it is computed. *)
Fixpoint insert_desc (a : entry) (l : list entry) : list entry :=
  match l with
  | [] => [a]
  | b :: l' => if key_lt a b then b :: insert_desc a l' else a :: l
  end.

Fixpoint sorted_scores (scores : list entry) : list entry :=
  match scores with
  | [] => []
  | a :: scores => insert_desc a (sorted_scores scores)
  end.

(** [l[:n]]: a negative [n] counts from the end. *)
Definition slice_to {A} (n : Z) (l : list A) : list A :=
  if (n <? 0)%Z then take (Z.to_nat (Z.of_nat (length l) + n)) l
  else take (Z.to_nat n) l.

(** The loop of lines 208-210 from rank [rank] on: [fromisoformat] formats
    the date of an entry or raises, which ends the function in its
    [except Exception] branch. *)
Fixpoint lines (fromisoformat : string -> option string) (rank : nat)
    (l : list entry) : list printed :=
  match l with
  | [] => []
  | e :: l =>
      match fromisoformat (date e) with
      | Some when => Line rank e when :: lines fromisoformat (S rank) l
      | None => [ErrorLoading]
      end
  end.

(** [display_high_scores]. *)
Definition display_high_scores (fromisoformat : string -> option string)
    (f : file) (top_n : Z) : list printed :=
  match f with
  | None => [NoScoresFile]
  | Some [] => [NoScoresFound]
  | Some scores =>
      Heading top_n
      :: lines fromisoformat 1 (slice_to top_n (sorted_scores scores))
  end.

(** [a] is ranked at least as high as [b]: a higher percentage, or the same
    percentage in no more time. *)
Definition ranks_before (a b : entry) : Prop :=
  (percentage b < percentage a)%Q
  \/ ((percentage a == percentage b)%Q /\ (total_time a <= total_time b)%Q).

(** [key(a) == key(b)]. *)
Definition same_key (a b : entry) : bool :=
  Qeq_bool (percentage a) (percentage b)
  && Qeq_bool (- total_time a) (- total_time b).

End Scores.

(** ** A sample score file *)

Definition score_a : Scores.entry :=
  {| Scores.date := "2024-05-01T10:00:00"; Scores.score := 4;
     Scores.total_questions := 5; Scores.percentage := 80;
     Scores.total_time := 40 |}.

Definition score_b : Scores.entry :=
  {| Scores.date := "2024-05-02T11:30:00"; Scores.score := 5;
     Scores.total_questions := 5; Scores.percentage := 100;
     Scores.total_time := 55 |}.

Definition score_c : Scores.entry :=
  {| Scores.date := "2024-05-03T09:15:00"; Scores.score := 8;
     Scores.total_questions := 10; Scores.percentage := 80;
     Scores.total_time := 30 |}.

Definition score_d : Scores.entry :=
  {| Scores.date := "2024-05-04T18:45:00"; Scores.score := 10;
     Scores.total_questions := 10; Scores.percentage := 100;
     Scores.total_time := 55 |}.

Definition sample_scores : list Scores.entry :=
  [score_a; score_b; score_c; score_d].

(** A date formatter that accepts every date and keeps its first sixteen
    characters, and one that refuses the empty string. *)
Definition sample_format (s : string) : option string :=
  match s with
  | EmptyString => None
  | _ => Some (String.substring 0 16 s)
  end.

(** The results of a perfect three-question session in 20 seconds. *)
Definition perfect_results : Results.t :=
  {| Results.score := 3; Results.total_questions := 3;
     Results.percentage := 100; Results.total_time := 20;
     Results.average_time_per_question := Float64.round64 (20 # 3);
     Results.user_answers := [] |}.

(** * Properties *)

(** ** Python primitives *)

Section Getitem.
Context {A : Type}.
Implicit Types (xs : list A) (i : Z).

Lemma py_getitem_nonneg xs i :
  (0 <= i < Z.of_nat (length xs))%Z ->
  exists a, xs !! Z.to_nat i = Some a /\ py_getitem xs i = Ret a.
Proof.
  intros Hi. unfold py_getitem.
  destruct (Z.ltb_spec i 0); [lia|].
  destruct (Z.ltb_spec i 0); [lia|].
  destruct (Z.leb_spec (Z.of_nat (length xs)) i); [lia|]. simpl.
  destruct (lookup_lt_is_Some_2 xs (Z.to_nat i)) as [a Ha]; [lia|].
  exists a. by rewrite Ha.
Qed.

Lemma py_getitem_negative xs i :
  (- Z.of_nat (length xs) <= i < 0)%Z ->
  exists a, xs !! Z.to_nat (i + Z.of_nat (length xs)) = Some a
            /\ py_getitem xs i = Ret a.
Proof.
  intros Hi. unfold py_getitem.
  destruct (Z.ltb_spec i 0); [|lia].
  destruct (Z.ltb_spec (i + Z.of_nat (length xs)) 0); [lia|].
  destruct (Z.leb_spec (Z.of_nat (length xs)) (i + Z.of_nat (length xs)));
    [lia|]. simpl.
  destruct (lookup_lt_is_Some_2 xs (Z.to_nat (i + Z.of_nat (length xs))))
    as [a Ha]; [lia|].
  exists a. by rewrite Ha.
Qed.

Lemma py_getitem_out_of_range xs i :
  (i < - Z.of_nat (length xs) \/ Z.of_nat (length xs) <= i)%Z ->
  py_getitem xs i = Raise IndexError.
Proof.
  intros Hi. unfold py_getitem.
  destruct (Z.ltb_spec i 0).
  - destruct (Z.ltb_spec (i + Z.of_nat (length xs)) 0); [done|lia].
  - destruct (Z.ltb_spec i 0); [lia|].
    destruct (Z.leb_spec (Z.of_nat (length xs)) i); [done|lia].
Qed.

Lemma py_getitem_Ret xs i a :
  py_getitem xs i = Ret a ->
  (- Z.of_nat (length xs) <= i < Z.of_nat (length xs))%Z /\ a ∈ xs.
Proof.
  intros H.
  destruct (Z_lt_le_dec i (- Z.of_nat (length xs))) as [Hlo|Hlo].
  { rewrite py_getitem_out_of_range in H by lia. discriminate. }
  destruct (Z_le_gt_dec (Z.of_nat (length xs)) i) as [Hhi|Hhi].
  { rewrite py_getitem_out_of_range in H by lia. discriminate. }
  split; [lia|].
  destruct (Z_lt_le_dec i 0).
  - destruct (py_getitem_negative xs i) as (b & Hb & E); [lia|].
    rewrite E in H. injection H as <-. by eapply list_elem_of_lookup_2.
  - destruct (py_getitem_nonneg xs i) as (b & Hb & E); [lia|].
    rewrite E in H. injection H as <-. by eapply list_elem_of_lookup_2.
Qed.
End Getitem.

Lemma index_from_spec `{EqDecision A} (x : A) (xs : list A) i :
  x ∈ xs ->
  exists k, index_from x xs i = Ret (i + k)
            /\ xs !! k = Some x
            /\ forall k', k' < k -> xs !! k' <> Some x.
Proof.
  revert i. induction xs as [|y ys IH]; intros i Hin.
  - by apply not_elem_of_nil in Hin.
  - simpl. destruct (decide (y = x)) as [->|Hne].
    + exists 0. rewrite Nat.add_0_r. split; [done|]. split; [done|].
      intros; lia.
    + apply elem_of_cons in Hin as [->|Hin]; [done|].
      destruct (IH (S i) Hin) as (k & E & Hk & Hfirst).
      exists (S k). rewrite E. split; [f_equal; lia|]. split; [done|].
      intros [|k'] Hlt; simpl; [congruence|]. apply Hfirst. lia.
Qed.

Lemma py_index_spec `{EqDecision A} (x : A) (xs : list A) :
  x ∈ xs ->
  exists k, py_index x xs = Ret k
            /\ xs !! k = Some x
            /\ forall k', k' < k -> xs !! k' <> Some x.
Proof. intros H. apply (index_from_spec x xs 0 H). Qed.

(** ** [random.shuffle] permutes *)

Section Shuffle.
Context {A : Type}.
Implicit Types (x : list A) (g : Rng).

(** With both indices inside the list the exchange succeeds. *)
Lemma swap_Ret i j x :
  i < length x -> j < length x ->
  exists x', swap i j x = Ret x' /\ x' ≡ₚ x /\ length x' = length x.
Proof.
  intros Hi Hj.
  destruct (lookup_lt_is_Some_2 x i Hi) as [xi Ei].
  destruct (lookup_lt_is_Some_2 x j Hj) as [xj Ej].
  exists (<[j:=xi]> (<[i:=xj]> x)). unfold swap. rewrite Ei, Ej.
  split; [done|]. split; [by apply Permutation_insert_swap|].
  by rewrite !length_insert.
Qed.

Lemma randbelow_lt n g : 0 < n -> fst (randbelow n g) < n.
Proof. intros Hn. simpl. apply Nat.mod_upper_bound. lia. Qed.

(** From an index inside the list the loop never raises, and permutes. *)
Lemma shuffle_loop_Ret i x g :
  i < length x \/ i = 0 ->
  exists x' g', shuffle_loop i x g = (Ret x', g') /\ x' ≡ₚ x.
Proof.
  revert x g. induction i as [|i IH]; intros x g Hi.
  { by exists x, g. }
  destruct Hi as [Hi|]; [|done].
  pose proof (randbelow_lt (S (S i)) g) as Hj.
  cbn [shuffle_loop]. destruct (randbelow (S (S i)) g) as [j g1].
  simpl in Hj.
  destruct (swap_Ret (S i) j x) as (x1 & -> & Hperm & Hlen); [lia..|].
  destruct (IH x1 g1) as (x' & g' & -> & Hperm'); [lia|].
  exists x', g'. split; [done|]. by rewrite Hperm'.
Qed.

Lemma shuffle_Ret x g :
  exists x' g', shuffle x g = (Ret x', g') /\ x' ≡ₚ x.
Proof.
  apply shuffle_loop_Ret. destruct x; simpl; [by right|left; lia].
Qed.
End Shuffle.

(** ** [get_current_question] *)

Lemma get_current_question_done w :
  length (questions (engine w)) <= current_question (engine w) ->
  get_current_question w = (Ret None, w).
Proof.
  intros H. unfold get_current_question, mbind, M_bind, bind, get_self.
  destruct (Nat.leb_spec (length (questions (engine w)))
                         (current_question (engine w))); [done|lia].
Qed.

Lemma get_current_question_active w q :
  questions (engine w) !! current_question (engine w) = Some q ->
  exists sh g' ci,
    shuffle (all_answers q) (rng w) = (Ret sh, g')
    /\ sh ≡ₚ all_answers q
    /\ py_index (Question.correct_answer q) sh = Ret ci
    /\ sh !! ci = Some (Question.correct_answer q)
    /\ get_current_question w =
       (Ret (Some {| Presented.base := q;
                     Presented.shuffled_answers := sh;
                     Presented.correct_index := ci |}),
        {| engine := engine w; rng := g' |}).
Proof.
  intros Hq. pose proof (lookup_lt_Some _ _ _ Hq) as Hlt.
  destruct (shuffle_Ret (all_answers q) (rng w)) as (sh & g' & Esh & Hperm).
  destruct (py_index_spec (Question.correct_answer q) sh)
    as (ci & Ei & Hci & _).
  { rewrite Hperm. unfold all_answers.
    apply elem_of_app. right. apply list_elem_of_singleton. done. }
  exists sh, g', ci. do 4 (split; [done|]).
  unfold get_current_question, mbind, M_bind, bind, get_self.
  destruct (Nat.leb_spec (length (questions (engine w)))
                         (current_question (engine w))); [lia|].
  destruct (py_getitem_nonneg (questions (engine w))
              (Z.of_nat (current_question (engine w)))) as (q' & Hq' & E);
    [lia|].
  rewrite Nat2Z.id, Hq in Hq'. injection Hq' as <-.
  unfold lift at 1. rewrite E. unfold random_shuffle.
  fold (all_answers q). rewrite Esh. unfold lift. by rewrite Ei.
Qed.

(** ** [submit_answer] *)

Lemma submit_answer_done w answer_index time_taken :
  length (questions (engine w)) <= current_question (engine w) ->
  submit_answer answer_index time_taken w = (Ret false, w).
Proof.
  intros H. unfold submit_answer, mbind, M_bind, bind, get_self.
  destruct (Nat.leb_spec (length (questions (engine w)))
                         (current_question (engine w))); [done|lia].
Qed.

(** The whole of an active submission, by the outcome of the indexing
    [question['shuffled_answers'][answer_index]]. *)
Lemma submit_answer_active w answer_index time_taken q :
  questions (engine w) !! current_question (engine w) = Some q ->
  exists p w1,
    get_current_question w = (Ret (Some p), w1)
    /\ engine w1 = engine w
    /\ Presented.base p = q
    /\ Presented.shuffled_answers p ≡ₚ all_answers q
    /\ Presented.shuffled_answers p !! Presented.correct_index p
       = Some (Question.correct_answer q)
    /\ submit_answer answer_index time_taken w =
       match py_getitem (Presented.shuffled_answers p) answer_index with
       | Ret user_answer =>
           (Ret (answer_index =? Z.of_nat (Presented.correct_index p))%Z,
            {| engine :=
                 graded (engine w)
                   (answer_record p user_answer
                      (answer_index =? Z.of_nat (Presented.correct_index p))%Z
                      time_taken);
               rng := rng w1 |})
       | Raise e => (Raise e, w1)
       end.
Proof.
  intros Hq. pose proof (lookup_lt_Some _ _ _ Hq) as Hlt.
  destruct (get_current_question_active w q Hq)
    as (sh & g' & ci & _ & Hperm & Ei & Hci & E).
  eexists _, _. split; [exact E|]. simpl.
  split; [done|]. split; [done|]. split; [done|]. split; [done|].
  unfold submit_answer, mbind, M_bind, bind, get_self.
  destruct (Nat.leb_spec (length (questions (engine w)))
                         (current_question (engine w))); [lia|].
  rewrite E. simpl.
  destruct (py_getitem sh answer_index) as [ua|e] eqn:Eg.
  - by destruct (Z.eqb_spec answer_index (Z.of_nat ci)).
  - destruct (Z.eqb_spec answer_index (Z.of_nat ci)) as [->|Hne].
    + exfalso. apply lookup_lt_Some in Hci.
      destruct (py_getitem_nonneg sh (Z.of_nat ci)) as (a & _ & Ea); [lia|].
      congruence.
    + done.
Qed.

(** ** Binary64 rounding *)

Lemma pow2_pos e : (0 < 2 ^ e)%Q.
Proof. by apply Qpower_0_lt. Qed.

Lemma pow2_le e1 e2 : (e1 <= e2)%Z -> (2 ^ e1 <= 2 ^ e2)%Q.
Proof. intros H. by apply Qpower_le_compat_l. Qed.

Lemma pow2_lt_inv e1 e2 : (2 ^ e1 < 2 ^ e2)%Q -> (e1 < e2)%Z.
Proof. intros H. by apply (Qpower_lt_compat_l_inv 2). Qed.

Lemma pow2_plus e1 e2 : (2 ^ (e1 + e2) == 2 ^ e1 * 2 ^ e2)%Q.
Proof. by apply Qpower_plus. Qed.

Lemma pow2_Z (n : Z) : (0 <= n)%Z -> (inject_Z (2 ^ n) == 2 ^ n)%Q.
Proof. intros H. by rewrite Zpower_Qpower. Qed.

Lemma Qmake_div (a : Z) (b : positive) :
  (a # b == inject_Z a / inject_Z (Zpos b))%Q.
Proof. apply Qmake_Qdiv. Qed.

Lemma ilog2_spec (x : Q) :
  (0 < x)%Q -> (2 ^ Float64.ilog2 x <= x < 2 ^ (Float64.ilog2 x + 1))%Q.
Proof.
  intros Hx. destruct x as [a b].
  assert (Ha : (0 < a)%Z) by (unfold Qlt in Hx; simpl in Hx; lia).
  unfold Float64.ilog2. simpl Qnum. simpl Qden.
  set (la := Z.log2 a). set (lb := Z.log2 (Z.pos b)).
  destruct (Z.log2_spec a Ha) as [Ha1 Ha2]. fold la in Ha1, Ha2.
  destruct (Z.log2_spec (Z.pos b) ltac:(lia)) as [Hb1 Hb2].
  fold lb in Hb1, Hb2.
  assert (Hla : (0 <= la)%Z) by apply Z.log2_nonneg.
  assert (Hlb : (0 <= lb)%Z) by apply Z.log2_nonneg.
  (* the bounds of numerator and denominator, as rationals *)
  assert (Qa1 : (2 ^ la <= inject_Z a)%Q)
    by (rewrite <- pow2_Z by done; by rewrite <- Zle_Qle).
  assert (Qa2 : (inject_Z a < 2 ^ (la + 1))%Q)
    by (rewrite <- pow2_Z by lia; rewrite <- Zlt_Qlt;
        by rewrite <- Z.add_1_r in Ha2).
  assert (Qb1 : (2 ^ lb <= inject_Z (Z.pos b))%Q)
    by (rewrite <- pow2_Z by done; by rewrite <- Zle_Qle).
  assert (Qb2 : (inject_Z (Z.pos b) < 2 ^ (lb + 1))%Q)
    by (rewrite <- pow2_Z by lia; rewrite <- Zlt_Qlt;
        by rewrite <- Z.add_1_r in Hb2).
  assert (Hb0 : (0 < inject_Z (Z.pos b))%Q) by done.
  (* 2^(d-1) < a/b < 2^(d+1) *)
  assert (Hup : (a # b < 2 ^ (la - lb + 1))%Q).
  { rewrite (Qmake_div a b). apply Qlt_shift_div_r; [done|].
    apply Qlt_le_trans with (2 ^ (la + 1))%Q; [done|].
    replace (la + 1)%Z with ((la - lb + 1) + lb)%Z by lia.
    rewrite pow2_plus. apply Qmult_le_l; [apply pow2_pos|done]. }
  assert (Hlow : (2 ^ (la - lb - 1) <= a # b)%Q).
  { rewrite (Qmake_div a b). apply Qle_shift_div_l; [done|].
    apply Qle_trans with (2 ^ la)%Q; [|done].
    replace la with ((la - lb - 1) + (lb + 1))%Z at 2 by lia.
    rewrite pow2_plus. apply Qmult_le_l; [apply pow2_pos|].
    by apply Qlt_le_weak. }
  destruct (Qle_bool (2 ^ (la - lb)) (a # b)) eqn:E.
  - apply Qle_bool_iff in E. by split.
  - split; [done|].
    replace (la - lb - 1 + 1)%Z with (la - lb)%Z by lia.
    apply Qnot_le_lt. intros H. apply Qle_bool_iff in H. congruence.
Qed.

(** Rounding to the nearest integer. *)
Lemma round_half_even_near (y : Q) :
  (Qabs (inject_Z (Float64.round_half_even y) - y) <= 1 # 2)%Q.
Proof.
  pose proof (Qfloor_le y) as H1. pose proof (Qlt_floor y) as H2.
  rewrite inject_Z_plus in H2. change (inject_Z 1) with 1%Q in H2.
  apply Qabs_Qle_condition. unfold Float64.round_half_even.
  destruct (Qcompare_spec (y - inject_Z (Qfloor y)) (1 # 2)) as [E|E|E];
    [destruct (Z.even (Qfloor y))| |];
    rewrite ?inject_Z_plus; change (inject_Z 1) with 1%Q; split; lra.
Qed.

Lemma round_half_even_le (y : Q) (N : Z) :
  (y <= inject_Z N)%Q -> (Float64.round_half_even y <= N)%Z.
Proof.
  intros H.
  pose proof (Qfloor_le y) as H1. pose proof (Qlt_floor y) as H2.
  assert (Hf : (Qfloor y <= N)%Z).
  { rewrite Zle_Qle. by eapply Qle_trans. }
  destruct (Z.eq_dec (Qfloor y) N) as [E|E].
  - (* y is the integer N *)
    assert (Hy : (y == inject_Z N)%Q) by (rewrite E in H1; lra).
    unfold Float64.round_half_even. rewrite E.
    destruct (Qcompare_spec (y - inject_Z N) (1 # 2)) as [E'|E'|E'];
      [lra|lia|lra].
  - unfold Float64.round_half_even.
    destruct (Qcompare (y - inject_Z (Qfloor y)) (1 # 2));
      [destruct (Z.even (Qfloor y))| |]; lia.
Qed.

Lemma round_half_even_ge (y : Q) (N : Z) :
  (inject_Z N <= y)%Q -> (N <= Float64.round_half_even y)%Z.
Proof.
  intros H.
  assert (Hf : (N <= Qfloor y)%Z).
  { rewrite <- (Qfloor_Z N). by apply Qfloor_resp_le. }
  unfold Float64.round_half_even.
  destruct (Qcompare (y - inject_Z (Qfloor y)) (1 # 2));
    [destruct (Z.even (Qfloor y))| |]; lia.
Qed.

(** [round64] at zero, and its value up to [==]. *)
Lemma round64_0 x : (x == 0)%Q -> Float64.round64 x = 0%Q.
Proof.
  intros H. unfold Float64.round64.
  assert (E : Qeq_bool (Qred x) 0 = true)
    by (apply Qeq_bool_iff; by rewrite Qred_correct).
  by rewrite E.
Qed.

Lemma round_half_even_comp (x y : Q) :
  (x == y)%Q -> Float64.round_half_even x = Float64.round_half_even y.
Proof.
  intros H. unfold Float64.round_half_even. rewrite (Qfloor_comp x y H).
  assert (Hc : Qcompare (x - inject_Z (Qfloor y)) (1 # 2)
               = Qcompare (y - inject_Z (Qfloor y)) (1 # 2)).
  { apply Qcompare_comp; [|reflexivity]. rewrite H. reflexivity. }
  by rewrite Hc.
Qed.

Lemma Qabs_pos_eq (x : Q) : (0 <= x)%Q -> Qabs x = x.
Proof.
  destruct x as [a b]. unfold Qle. simpl. intros H.
  f_equal. apply Z.abs_eq. lia.
Qed.

(** A positive [x] is rounded in its binade [2^k <= x < 2^(k+1)]. *)
Lemma round64_pos (x : Q) :
  (0 < x)%Q ->
  exists k : Z,
    (2 ^ k <= x < 2 ^ (k + 1))%Q
    /\ (Float64.round64 x
        == inject_Z (Float64.round_half_even (x / 2 ^ Z.max (k - 52) (-1074)))
           * 2 ^ Z.max (k - 52) (-1074))%Q.
Proof.
  intros Hx.
  assert (Hr : (Qred x == x)%Q) by apply Qred_correct.
  assert (Hx' : (0 < Qred x)%Q) by (by rewrite Hr).
  exists (Float64.ilog2 (Qred x)). split.
  - rewrite <- Hr at 2 3. by apply ilog2_spec.
  - unfold Float64.round64.
    destruct (Qeq_bool (Qred x) 0) eqn:E.
    + apply Qeq_bool_iff in E. rewrite E in Hx'. by apply Qlt_irrefl in Hx'.
    + rewrite Qred_correct. unfold Float64.ulp_exp.
      rewrite (Qabs_pos_eq (Qred x)) by (by apply Qlt_le_weak).
      rewrite (round_half_even_comp
                 (Qred x / 2 ^ Z.max (Float64.ilog2 (Qred x) - 52) (-1074))
                 (x / 2 ^ Z.max (Float64.ilog2 (Qred x) - 52) (-1074)));
        [reflexivity|].
      unfold Qdiv. apply Qmult_comp; [exact Hr|reflexivity].
Qed.

Lemma round64_nonneg (x : Q) : (0 <= x)%Q -> (0 <= Float64.round64 x)%Q.
Proof.
  intros Hx. destruct (Qeq_dec x 0) as [E|E].
  - rewrite (round64_0 x E). apply Qle_refl.
  - assert (Hx' : (0 < x)%Q).
    { apply Qnot_le_lt. intros H. apply E. by apply Qle_antisym. }
    destruct (round64_pos x Hx') as (k & _ & ->).
    apply Qmult_le_0_compat; [|apply Qlt_le_weak, pow2_pos].
    change 0%Q with (inject_Z 0). rewrite <- Zle_Qle.
    apply round_half_even_ge. change (inject_Z 0) with 0%Q.
    apply Qle_shift_div_l; [apply pow2_pos|]. by rewrite Qmult_0_l.
Qed.

(** Rounding does not cross an integer, below [2^53]. *)
Lemma round64_le_int (x : Q) (c : Z) :
  (0 < x)%Q -> (x <= inject_Z c)%Q -> (x < 2 ^ 53)%Q ->
  (Float64.round64 x <= inject_Z c)%Q.
Proof.
  intros Hx Hc H53.
  destruct (round64_pos x Hx) as (k & [Hk1 Hk2] & ->).
  assert (Hk : (k < 53)%Z).
  { apply pow2_lt_inv. by eapply Qle_lt_trans. }
  set (e := Z.max (k - 52) (-1074)).
  assert (He : (e <= 0)%Z) by lia.
  assert (Hpe : (2 ^ e * inject_Z (2 ^ (- e)) == 1)%Q).
  { rewrite pow2_Z by lia. rewrite <- pow2_plus.
    by replace (e + - e)%Z with 0%Z by lia. }
  pose proof (pow2_pos e) as Hp.
  (* [c] is a multiple of the unit in the last place *)
  assert (HN : (inject_Z c == inject_Z (c * 2 ^ (- e)) * 2 ^ e)%Q).
  { rewrite inject_Z_mult, <- Qmult_assoc, (Qmult_comm _ (2 ^ e)), Hpe.
    by rewrite Qmult_1_r. }
  rewrite HN. apply Qmult_le_compat_r; [|by apply Qlt_le_weak].
  rewrite <- Zle_Qle. apply round_half_even_le.
  apply Qle_shift_div_r; [done|]. by rewrite <- HN.
Qed.

(** In the normal range the relative error is at most [2^-53]. *)
Lemma round64_relative_error (x : Q) :
  (2 ^ (-1022) <= x)%Q ->
  (Qabs (Float64.round64 x - x) <= x * 2 ^ (-53))%Q.
Proof.
  intros Hn.
  assert (Hx : (0 < x)%Q) by (eapply Qlt_le_trans; [apply pow2_pos|done]).
  destruct (round64_pos x Hx) as (k & [Hk1 Hk2] & ->).
  assert (Hk : (-1022 <= k)%Z).
  { assert (2 ^ (-1022) < 2 ^ (k + 1))%Q by (by eapply Qle_lt_trans).
    apply pow2_lt_inv in H. lia. }
  replace (Z.max (k - 52) (-1074)) with (k - 52)%Z by lia.
  set (e := (k - 52)%Z). pose proof (pow2_pos e) as Hp.
  pose proof (round_half_even_near (x / 2 ^ e)) as Hnear.
  set (m := inject_Z (Float64.round_half_even (x / 2 ^ e))) in *.
  (* |m * 2^e - x| = |m - x / 2^e| * 2^e <= 2^e / 2 *)
  assert (Hdiff : (m * 2 ^ e - x == (m - x / 2 ^ e) * 2 ^ e)%Q).
  { field. intros H0. rewrite H0 in Hp. by apply Qlt_irrefl in Hp. }
  rewrite Hdiff, Qabs_Qmult, (Qabs_pos (2 ^ e)) by (by apply Qlt_le_weak).
  apply Qle_trans with ((1 # 2) * 2 ^ e)%Q.
  { apply Qmult_le_compat_r; [done|by apply Qlt_le_weak]. }
  (* 2^e = 2^k * 2^-52 <= x * 2^-52 *)
  assert (He : (2 ^ e == 2 ^ k * 2 ^ (-52))%Q).
  { unfold e. replace (k - 52)%Z with (k + -52)%Z by lia.
    apply pow2_plus. }
  assert (H53 : (2 ^ (-53) == (1 # 2) * 2 ^ (-52))%Q).
  { change (-53)%Z with (-1 + -52)%Z. rewrite pow2_plus. reflexivity. }
  rewrite He, H53.
  pose proof (pow2_pos (-52)) as Hu. set (u := (2 ^ (-52))%Q) in *.
  apply Qle_trans with ((1 # 2) * (x * u))%Q.
  { apply Qmult_le_l; [done|].
    apply Qmult_le_compat_r; [done|by apply Qlt_le_weak]. }
  apply Qle_lteq. right. ring.
Qed.

Lemma round64_positive (x : Q) :
  (2 ^ (-1022) <= x)%Q -> (0 < Float64.round64 x)%Q.
Proof.
  intros Hn.
  assert (Hx : (0 < x)%Q) by (eapply Qlt_le_trans; [apply pow2_pos|done]).
  pose proof (round64_relative_error x Hn) as He.
  apply Qabs_Qle_condition in He as [He _].
  change (2 ^ (-53))%Q with (1 # 9007199254740992)%Q in He. lra.
Qed.

Lemma py_float_positive (n : Z) : (0 < n)%Z -> (0 < py_float n)%Q.
Proof.
  intros Hn. apply round64_positive.
  apply Qle_trans with 1%Q; [by apply (pow2_le (-1022) 0)|].
  change 1%Q with (inject_Z 1). rewrite <- Zle_Qle. lia.
Qed.

Lemma float_truediv_Ret (x : Q) (n : Z) :
  (0 < n)%Z -> float_truediv x n = Ret (Float64.round64 (x / py_float n)).
Proof.
  intros Hn. unfold float_truediv.
  destruct (Qeq_bool (py_float n) 0) eqn:E; [|done].
  apply Qeq_bool_iff in E. pose proof (py_float_positive n Hn) as H.
  rewrite E in H. by apply Qlt_irrefl in H.
Qed.

(** The ratio of a score to a total. *)
Lemma ratio_bounds (s n : nat) :
  s <= n -> 0 < n ->
  (0 <= inject_Z (Z.of_nat s) / inject_Z (Z.of_nat n) <= 1)%Q.
Proof.
  intros Hsn Hn.
  assert (H0 : (0 < inject_Z (Z.of_nat n))%Q).
  { change 0%Q with (inject_Z 0). rewrite <- Zlt_Qlt. lia. }
  split.
  - apply Qle_shift_div_l; [done|]. rewrite Qmult_0_l.
    change 0%Q with (inject_Z 0). rewrite <- Zle_Qle. lia.
  - apply Qle_shift_div_r; [done|]. rewrite Qmult_1_l.
    rewrite <- Zle_Qle. lia.
Qed.

Lemma round64_unit_interval (x : Q) :
  (0 <= x <= 1)%Q -> (0 <= Float64.round64 x <= 1)%Q.
Proof.
  intros [H0 H1]. split; [by apply round64_nonneg|].
  destruct (Qeq_dec x 0) as [E|E]; [by rewrite (round64_0 x E)|].
  apply (round64_le_int x 1); [|done|].
  - apply Qnot_le_lt. intros H. apply E. by apply Qle_antisym.
  - eapply Qle_lt_trans; [exact H1|]. reflexivity.
Qed.

Lemma int_truediv_ratio (s n : nat) :
  s <= n -> 0 < n ->
  int_truediv (Z.of_nat s) (Z.of_nat n)
  = Ret (Float64.round64 (inject_Z (Z.of_nat s) / inject_Z (Z.of_nat n))).
Proof.
  intros Hsn Hn. unfold int_truediv.
  destruct (Z.eqb_spec (Z.of_nat n) 0) as [E|_]; [lia|].
  pose proof (round64_unit_interval _ (ratio_bounds s n Hsn Hn)) as [H0 H1].
  cbv zeta. unfold Float64.overflows.
  destruct (Qle_bool (2 ^ 1024) _) eqn:E; [|done].
  apply Qle_bool_iff in E. rewrite Qabs_pos in E by done.
  assert (Hp : (1 < 2 ^ 1024)%Q) by (by apply (Qpower_lt_compat_l 2 0 1024)).
  exfalso. apply (Qlt_irrefl 1). eapply Qlt_le_trans; [exact Hp|].
  by eapply Qle_trans.
Qed.

Lemma py_float_100 : py_float 100 = 100%Q.
Proof. vm_compute. reflexivity. Qed.

Lemma float_mul_100_bounds (x : Q) :
  (0 <= x <= 1)%Q -> (0 <= float_mul x 100 <= 100)%Q.
Proof.
  intros [H0 H1]. unfold float_mul. rewrite py_float_100.
  split; [apply round64_nonneg; lra|].
  destruct (Qeq_dec (x * 100) 0) as [E|E]; [by rewrite (round64_0 _ E)|].
  apply (round64_le_int (x * 100) 100).
  - apply Qnot_le_lt. intros H. apply E. apply Qle_antisym; lra.
  - change (inject_Z 100) with 100%Q. lra.
  - apply Qle_lt_trans with 100%Q; [lra|reflexivity].
Qed.

(** Two roundings: within [3 * 2^-53] of the exact percentage. *)
Lemma percentage_tolerance (s n : nat) :
  s <= n -> 0 < n -> (Z.of_nat n < 2 ^ 63)%Z ->
  let q := (inject_Z (Z.of_nat s) / inject_Z (Z.of_nat n))%Q in
  (Qabs (float_mul (Float64.round64 q) 100 - 100 * q)
   <= 100 * q * (3 * 2 ^ (-53)))%Q.
Proof.
  intros Hsn Hn H63 q. unfold float_mul. rewrite py_float_100.
  destruct (ratio_bounds s n Hsn Hn) as [Hq0 Hq1]. fold q in Hq0, Hq1.
  destruct (Nat.eq_dec s 0) as [->|Hs].
  { assert (Hq : (q == 0)%Q) by (unfold q; simpl; field;
      change 0%Q with (inject_Z 0); rewrite inject_Z_injective; lia).
    rewrite (round64_0 q Hq), (round64_0 (0 * 100)) by reflexivity.
    rewrite Hq. by vm_compute. }
  assert (H0 : (0 < inject_Z (Z.of_nat n))%Q).
  { change 0%Q with (inject_Z 0). rewrite <- Zlt_Qlt. lia. }
  (* the ratio is at least 2^-63, far inside the normal range *)
  assert (Hq63 : (2 ^ (-63) <= q)%Q).
  { apply Qle_shift_div_l; [done|].
    apply Qle_trans with (2 ^ (-63) * 2 ^ 63)%Q.
    - apply Qmult_le_l; [apply pow2_pos|].
      rewrite <- pow2_Z by lia. rewrite <- Zle_Qle. lia.
    - rewrite <- pow2_plus. change (-63 + 63)%Z with 0%Z.
      change (2 ^ 0)%Q with (inject_Z 1). rewrite <- Zle_Qle. lia. }
  assert (Hqn : (2 ^ (-1022) <= q)%Q).
  { eapply Qle_trans; [|exact Hq63]. by apply pow2_le. }
  pose proof (round64_relative_error q Hqn) as E1.
  apply Qabs_Qle_condition in E1 as [E1a E1b].
  set (r := Float64.round64 q) in *.
  assert (Hrn : (2 ^ (-1022) <= r * 100)%Q).
  { apply Qle_trans with (2 ^ (-63))%Q; [by apply pow2_le|].
    change (2 ^ (-53))%Q with (1 # 9007199254740992)%Q in E1a. lra. }
  pose proof (round64_relative_error (r * 100) Hrn) as E2.
  apply Qabs_Qle_condition in E2 as [E2a E2b].
  set (p := Float64.round64 (r * 100)) in *.
  change (2 ^ (-53))%Q with (1 # 9007199254740992)%Q in *.
  apply Qabs_Qle_condition. split; lra.
Qed.

Lemma round64_comp (x y : Q) :
  (x == y)%Q -> Float64.round64 x = Float64.round64 y.
Proof. intros H. unfold Float64.round64. by rewrite (Qred_complete x y H). Qed.

Lemma percentage_of_full_score (n : nat) :
  0 < n ->
  float_mul
    (Float64.round64 (inject_Z (Z.of_nat n) / inject_Z (Z.of_nat n))) 100
  = 100%Q.
Proof.
  intros Hn.
  rewrite (round64_comp _ 1).
  - vm_compute. reflexivity.
  - field. change 0%Q with (inject_Z 0). rewrite inject_Z_injective. lia.
Qed.

Lemma percentage_of_no_score (n : nat) :
  float_mul
    (Float64.round64 (inject_Z (Z.of_nat 0) / inject_Z (Z.of_nat n))) 100
  = 0%Q.
Proof.
  rewrite (round64_0 (inject_Z (Z.of_nat 0) / inject_Z (Z.of_nat n))).
  - vm_compute. reflexivity.
  - unfold Qdiv. simpl. apply Qmult_0_l.
Qed.

(** ** The read-only methods leave the world alone *)

Lemma get_progress_eq w :
  get_progress w
  = (Ret (current_question (engine w), length (questions (engine w))), w).
Proof. reflexivity. Qed.

Lemma get_final_results_world now w :
  snd (get_final_results now w) = w.
Proof.
  unfold get_final_results, mbind, M_bind, bind, get_self, lift.
  destruct (question_times (engine w)) as [|t ts];
    [|destruct (float_truediv _ _); [|done]];
    (destruct (questions (engine w)) as [|q qs];
       [|destruct (int_truediv _ _)]); done.
Qed.

Lemma get_current_question_engine w :
  engine (snd (get_current_question w)) = engine w.
Proof.
  destruct (le_lt_dec (length (questions (engine w)))
                      (current_question (engine w))) as [Hdone|Hact].
  - by rewrite get_current_question_done.
  - destruct (lookup_lt_is_Some_2 _ _ Hact) as [q Hq].
    destruct (get_current_question_active w q Hq)
      as (sh & g' & ci & _ & _ & _ & _ & E).
    by rewrite E.
Qed.

(** ** One call, seen from the engine *)

(** A call inside a session either leaves the engine as it is or grades the
    current question. *)
Lemma exec_session_engine c w :
  engine (exec_session c w) = engine w
  \/ (current_question (engine w) < length (questions (engine w))
      /\ exists a, engine (exec_session c w) = graded (engine w) a).
Proof.
  destruct c as [|answer_index time_taken| |now]; simpl.
  - left. apply get_current_question_engine.
  - destruct (le_lt_dec (length (questions (engine w)))
                        (current_question (engine w))) as [Hdone|Hact].
    + left. by rewrite submit_answer_done.
    + destruct (lookup_lt_is_Some_2 _ _ Hact) as [q Hq].
      destruct (submit_answer_active w answer_index time_taken q Hq)
        as (p & w1 & _ & Hw1 & _ & _ & _ & E).
      rewrite E.
      destruct (py_getitem (Presented.shuffled_answers p) answer_index).
      * right. split; [done|]. by eexists.
      * left. done.
  - by left.
  - left. by rewrite get_final_results_world.
Qed.

Lemma count_correct_app l a :
  count_correct (l ++ [a])
  = count_correct l + (if Answer.is_correct a then 1 else 0).
Proof.
  unfold count_correct. rewrite List.filter_app, length_app. simpl.
  by destruct (Answer.is_correct a).
Qed.

Lemma consistent_graded e a :
  current_question e < length (questions e) ->
  consistent e -> consistent (graded e a).
Proof.
  intros Hact (Hs & Hu & Ht & Hp). unfold consistent, graded. simpl.
  rewrite count_correct_app, !length_app. simpl.
  repeat split; try lia. destruct (Answer.is_correct a); lia.
Qed.

Lemma consistent_load qs now w :
  consistent (engine (snd (load_questions qs now w))).
Proof. unfold consistent. simpl. repeat split. lia. Qed.

Lemma consistent_exec_session c w :
  consistent (engine w) -> consistent (engine (exec_session c w)).
Proof.
  intros H. destruct (exec_session_engine c w) as [->|(Hact & a & ->)];
    [done|]. by apply consistent_graded.
Qed.

Lemma consistent_exec c w :
  consistent (engine w) -> consistent (engine (exec c w)).
Proof.
  destruct c as [qs now|c].
  - intros _. exact (consistent_load qs now w).
  - exact (consistent_exec_session c w).
Qed.

Lemma consistent_run cs w :
  consistent (engine w) -> consistent (engine (run cs w)).
Proof.
  revert w. induction cs as [|c cs IH]; intros w H; [done|].
  apply (IH (exec c w)). by apply consistent_exec.
Qed.

Lemma consistent_score_le e :
  consistent e -> score e <= length (questions e).
Proof.
  intros (Hs & Hu & _ & Hp). rewrite Hs. unfold count_correct.
  pose proof (List.filter_length_le Answer.is_correct (user_answers e)). lia.
Qed.

Lemma questions_exec_session c w :
  questions (engine (exec_session c w)) = questions (engine w).
Proof.
  by destruct (exec_session_engine c w) as [->|(_ & a & ->)].
Qed.

Lemma questions_run_session cs w :
  questions (engine (run_session cs w)) = questions (engine w).
Proof.
  revert w. induction cs as [|c cs IH]; intros w; [done|].
  etrans; [apply (IH (exec_session c w))|]. apply questions_exec_session.
Qed.

Lemma consistent_run_session cs w :
  consistent (engine w) -> consistent (engine (run_session cs w)).
Proof.
  revert w. induction cs as [|c cs IH]; intros w H; [done|].
  apply (IH (exec_session c w)). by apply consistent_exec_session.
Qed.

Lemma current_question_exec_session c w :
  current_question (engine w)
  <= current_question (engine (exec_session c w)).
Proof.
  destruct (exec_session_engine c w) as [->|(_ & a & ->)]; simpl; lia.
Qed.

Lemma current_question_run_session cs w :
  current_question (engine w)
  <= current_question (engine (run_session cs w)).
Proof.
  revert w. induction cs as [|c cs IH]; intros w; [done|].
  etrans; [apply (current_question_exec_session c w)|].
  apply (IH (exec_session c w)).
Qed.

(** ** The store-level [get_current_question] *)

(** *** It keeps every object that existed before the call *)

Section Frame.
Context (n : Store.addr).

Lemma frame_refl s : frame n s s.
Proof. by repeat split. Qed.

Lemma frame_trans s1 s2 s3 : frame n s1 s2 -> frame n s2 s3 -> frame n s1 s3.
Proof.
  intros (H1 & H2 & H3) (H1' & H2' & H3'). repeat split.
  - congruence.
  - lia.
  - intros a Ha. rewrite H3', H3; done.
Qed.

Lemma keeps_ret {A} (a : A) (post : A -> Prop) :
  post a -> keeps n (mret a) post.
Proof. intros H s _. split; [apply frame_refl|done]. Qed.

Lemma keeps_raise {A} e (post : A -> Prop) : keeps n (Store.raise e) post.
Proof. intros s _. split; [apply frame_refl|done]. Qed.

Lemma keeps_lift {A} (o : outcome A) : keeps n (Store.lift o) (fun _ => True).
Proof. intros s _. split; [apply frame_refl|by destruct o]. Qed.

Lemma keeps_bind {A B} (m : Store.St A) (k : A -> Store.St B) P Q :
  keeps n m P -> (forall a, P a -> keeps n (k a) Q) -> keeps n (m ≫= k) Q.
Proof.
  intros Hm Hk s Hs. destruct (Hm s Hs) as [Hf Hp].
  unfold mbind, Store.St_bind.
  destruct (m s) as [[a|e] s'] eqn:E; simpl in *; [|done].
  destruct (Hk a Hp s') as [Hf' Hq]; [destruct Hf as (_ & ? & _); lia|].
  split; [by eapply frame_trans|done].
Qed.

Lemma keeps_get_self : keeps n Store.get_self (fun _ => True).
Proof. intros s _. split; [apply frame_refl|done]. Qed.

Lemma keeps_read a : keeps n (Store.read a) (fun _ => True).
Proof. intros s _. split; [apply frame_refl|done]. Qed.

(** A new object lies above everything allocated before. *)
Lemma keeps_alloc o : keeps n (Store.alloc o) (fun a => n <= a).
Proof.
  intros s Hs. split; [|done]. repeat split; simpl; [lia|].
  intros a Ha. apply fn_lookup_insert_ne. lia.
Qed.

(** An update in place is harmless above [n]. *)
Lemma keeps_write a o : n <= a -> keeps n (Store.write a o) (fun _ => True).
Proof.
  intros Ha s Hs. split; [|done]. repeat split; simpl; [lia|].
  intros b Hb. apply fn_lookup_insert_ne. lia.
Qed.

Lemma keeps_list_items v : keeps n (Store.list_items v) (fun _ => True).
Proof.
  destruct v; try apply keeps_raise. simpl.
  eapply keeps_bind; [apply keeps_read|]. intros [items|entries] _.
  - by apply keeps_ret.
  - apply keeps_raise.
Qed.

Lemma keeps_dict_entries v : keeps n (Store.dict_entries v) (fun _ => True).
Proof.
  destruct v; try apply keeps_raise. simpl.
  eapply keeps_bind; [apply keeps_read|]. intros [items|entries] _.
  - apply keeps_raise.
  - by apply keeps_ret.
Qed.

Lemma keeps_dict_getitem d k :
  keeps n (Store.dict_getitem d k) (fun _ => True).
Proof.
  eapply keeps_bind; [apply keeps_dict_entries|]. intros es _.
  apply keeps_lift.
Qed.

Lemma keeps_dict_setitem d k v :
  n <= d -> keeps n (Store.dict_setitem d k v) (fun _ => True).
Proof.
  intros Hd. eapply keeps_bind; [apply keeps_dict_entries|]. intros es _.
  by apply keeps_write.
Qed.

Lemma keeps_dict_copy d : keeps n (Store.dict_copy d) (fun a => n <= a).
Proof.
  eapply keeps_bind; [apply keeps_dict_entries|]. intros es _.
  apply keeps_alloc.
Qed.

Lemma keeps_list_add xs v : keeps n (Store.list_add xs v) (fun a => n <= a).
Proof.
  eapply keeps_bind; [apply keeps_list_items|]. intros items _.
  apply keeps_alloc.
Qed.

Lemma keeps_shuffled items : keeps n (Store.shuffled items) (fun _ => True).
Proof.
  intros s _. unfold Store.shuffled.
  destruct (shuffle items (Store.rng s)) as [[items'|e] g'];
    (split; [by repeat split|done]).
Qed.

Lemma keeps_random_shuffle x :
  n <= x -> keeps n (Store.random_shuffle x) (fun _ => True).
Proof.
  intros Hx. eapply keeps_bind; [apply keeps_list_items|]. intros items _.
  eapply keeps_bind; [apply keeps_shuffled|]. intros items' _.
  by apply keeps_write.
Qed.

Lemma keeps_list_index xs v :
  keeps n (Store.list_index xs v) (fun _ => True).
Proof.
  eapply keeps_bind; [apply keeps_list_items|]. intros items _.
  apply keeps_lift.
Qed.

(** The copy and the new list are the only objects written to. *)
Lemma keeps_get_current_question :
  keeps n Store.get_current_question (fun _ => True).
Proof.
  unfold Store.get_current_question.
  eapply keeps_bind; [apply keeps_get_self|]. intros self _.
  eapply keeps_bind; [apply keeps_list_items|]. intros stored_questions _.
  destruct (_ <=? _); [by apply keeps_ret|].
  eapply keeps_bind; [apply keeps_lift|]. intros stored _.
  eapply keeps_bind; [apply keeps_dict_copy|]. intros question Hquestion.
  eapply keeps_bind; [apply keeps_dict_getitem|]. intros incorrect _.
  eapply keeps_bind; [apply keeps_dict_getitem|]. intros correct _.
  eapply keeps_bind; [apply keeps_list_add|]. intros all_answers Hall.
  eapply keeps_bind; [by apply keeps_random_shuffle|]. intros _ _.
  eapply keeps_bind; [by apply keeps_dict_setitem|]. intros _ _.
  eapply keeps_bind; [apply keeps_dict_getitem|]. intros correct' _.
  eapply keeps_bind; [apply keeps_list_index|]. intros correct_index _.
  eapply keeps_bind; [by apply keeps_dict_setitem|]. intros _ _.
  by apply keeps_ret.
Qed.
End Frame.

(** *** It computes what the engine of the first part computes *)

Lemma swap_fmap {A B} (f : A -> B) i j (x : list A) :
  swap i j (f <$> x)
  = match swap i j x with
    | Ret x' => Ret (f <$> x')
    | Raise e => Raise e
    end.
Proof.
  unfold swap. rewrite !list_lookup_fmap.
  destruct (x !! j), (x !! i); simpl; by rewrite ?list_fmap_insert.
Qed.

Lemma shuffle_loop_fmap {A B} (f : A -> B) i (x : list A) g :
  shuffle_loop i (f <$> x) g
  = match shuffle_loop i x g with
    | (Ret x', g') => (Ret (f <$> x'), g')
    | (Raise e, g') => (Raise e, g')
    end.
Proof.
  revert x g. induction i as [|i IH]; intros x g; [done|].
  cbn [shuffle_loop]. destruct (randbelow (S (S i)) g) as [j g1].
  rewrite swap_fmap. destruct (swap (S i) j x) as [x1|e]; [apply IH|done].
Qed.

Lemma shuffle_fmap {A B} (f : A -> B) (x : list A) g :
  shuffle (f <$> x) g
  = match shuffle x g with
    | (Ret x', g') => (Ret (f <$> x'), g')
    | (Raise e, g') => (Raise e, g')
    end.
Proof. unfold shuffle. by rewrite length_fmap, shuffle_loop_fmap. Qed.

Lemma index_from_fmap `{EqDecision A} `{EqDecision B} (f : A -> B)
    `{!Inj (=) (=) f} x (xs : list A) i :
  index_from (f x) (f <$> xs) i = index_from x xs i.
Proof.
  revert i. induction xs as [|y ys IH]; intros i; simpl; [done|].
  destruct (decide (f y = f x)) as [Heq|Hne], (decide (y = x)) as [->|Hne'];
    try done.
  by apply (inj f) in Heq.
Qed.

#[global] Instance VStr_inj : Inj (=) (=) Store.VStr.
Proof. by intros ?? [= ->]. Qed.

Lemma bind_Ret {A B} (m : Store.St A) (k : A -> Store.St B) s a s' :
  m s = (Ret a, s') -> (m ≫= k) s = k a s'.
Proof. intros E. unfold mbind, Store.St_bind. by rewrite E. Qed.

Lemma list_items_eq a items s :
  Store.cells (Store.mem s) a = Store.OList items ->
  Store.list_items (Store.VRef a) s = (Ret items, s).
Proof.
  intros E. unfold Store.list_items, mbind, Store.St_bind, Store.read.
  by rewrite E.
Qed.

Lemma dict_entries_eq a es s :
  Store.cells (Store.mem s) a = Store.ODict es ->
  Store.dict_entries (Store.VRef a) s = (Ret es, s).
Proof.
  intros E. unfold Store.dict_entries, mbind, Store.St_bind, Store.read.
  by rewrite E.
Qed.

Lemma dict_getitem_eq d k es s :
  Store.cells (Store.mem s) d = Store.ODict es ->
  Store.dict_getitem d k s = (Store.assoc_get k es, s).
Proof.
  intros E. unfold Store.dict_getitem.
  by rewrite (bind_Ret _ _ _ _ _ (dict_entries_eq d es s E)).
Qed.

Lemma dict_setitem_eq d k v es s :
  Store.cells (Store.mem s) d = Store.ODict es ->
  Store.dict_setitem d k v s
  = Store.write d (Store.ODict (Store.assoc_set k v es)) s.
Proof.
  intros E. unfold Store.dict_setitem.
  by rewrite (bind_Ret _ _ _ _ _ (dict_entries_eq d es s E)).
Qed.

Lemma assoc_set_shuffled_answers q l v :
  Store.assoc_set "shuffled_answers" v (Store.question_entries q l)
  = Store.question_entries q l ++ [("shuffled_answers"%string, v)].
Proof. reflexivity. Qed.

Lemma assoc_set_correct_index q l v v' :
  Store.assoc_set "correct_index" v'
    (Store.question_entries q l ++ [("shuffled_answers"%string, v)])
  = Store.question_entries q l
    ++ [("shuffled_answers"%string, v); ("correct_index"%string, v')].
Proof. reflexivity. Qed.

Lemma assoc_get_correct_answer q l es :
  Store.assoc_get "correct_answer" (Store.question_entries q l ++ es)
  = Ret (Store.VStr (Question.correct_answer q)).
Proof. reflexivity. Qed.

Lemma question_at_frame h h' v q :
  Store.next h <= Store.next h' ->
  (forall a, a < Store.next h -> Store.cells h' a = Store.cells h a) ->
  question_at h v q -> question_at h' v q.
Proof.
  intros Hn Hc (d & l & -> & Hd & Hl & Ed & El).
  exists d, l. rewrite !Hc by done. repeat split; try done; lia.
Qed.

Ltac lookup_cell :=
  cbn [Store.mem Store.cells Store.next Store.self Store.rng];
  repeat (rewrite fn_lookup_insert_ne by lia);
  rewrite ?fn_lookup_insert; try eassumption; reflexivity.

(** On a store that holds [w], the store-level function returns a
    dictionary holding exactly the presented question of the engine [w],
    and the store it leaves still holds the world the engine leaves. *)
Lemma get_current_question_refines s w :
  represents s w ->
  match get_current_question w with
  | (Ret None, w1) =>
      w1 = w /\ Store.get_current_question s = (Ret Store.VNone, s)
  | (Ret (Some p), w1) =>
      exists v s',
        Store.get_current_question s = (Ret v, s')
        /\ presented_at (Store.mem s') v p
        /\ represents s' w1
  | (Raise _, _) => False
  end.
Proof.
  intros (Hqa & (vs & Hvs & Hall) & Hpos & Hsc & Hst & Hqt & Hua & Hrng).
  pose proof (Forall2_length Hall) as Hlen.
  unfold Store.get_current_question.
  erewrite bind_Ret by reflexivity.
  erewrite bind_Ret by (by apply list_items_eq).
  destruct (le_lt_dec (length (questions (engine w)))
              (current_question (engine w))) as [Hdone|Hact].
  { rewrite get_current_question_done by done.
    destruct (Nat.leb_spec (length vs)
                (Store.current_question (Store.self s))); [done|lia]. }
  destruct (lookup_lt_is_Some_2 _ _ Hact) as [q Hq].
  destruct (get_current_question_active w q Hq)
    as (sh & g' & ci & Esh & _ & Ei & Hci & ->).
  destruct (Nat.leb_spec (length vs)
              (Store.current_question (Store.self s))); [lia|].
  destruct (Forall2_lookup_r _ _ _ _ _ Hall Hq) as (v & Hv & Hat).
  destruct Hat as (d & l & -> & Hd & Hl & Ed & El).
  destruct (py_getitem_nonneg vs
              (Z.of_nat (Store.current_question (Store.self s))))
    as (v' & Hv' & Eg); [lia|].
  rewrite Nat2Z.id, Hpos, Hv in Hv'. injection Hv' as <-.
  erewrite bind_Ret by (unfold Store.lift; by rewrite Eg).
  set (n := Store.next (Store.mem s)) in *.
  (* question = self.questions[self.current_question].copy() *)
  erewrite bind_Ret by
    (unfold Store.dict_copy;
     erewrite bind_Ret by (by apply dict_entries_eq); reflexivity).
  fold n.
  (* all_answers = question['incorrect_answers'] + [...] *)
  erewrite bind_Ret by
    (erewrite dict_getitem_eq by lookup_cell; reflexivity).
  erewrite bind_Ret by
    (erewrite dict_getitem_eq by lookup_cell; reflexivity).
  erewrite bind_Ret by
    (unfold Store.list_add;
     erewrite bind_Ret by (apply list_items_eq; lookup_cell); reflexivity).
  cbn [Store.mem Store.cells Store.next Store.self Store.rng].
  (* random.shuffle(all_answers) *)
  erewrite bind_Ret by
    (unfold Store.random_shuffle;
     erewrite bind_Ret by (apply list_items_eq; lookup_cell);
     erewrite bind_Ret by
       (unfold Store.shuffled; cbn [Store.rng];
        rewrite <- (fmap_app Store.VStr _ [Question.correct_answer q]);
        fold (all_answers q); rewrite shuffle_fmap, Hrng, Esh;
        reflexivity);
     reflexivity).
  cbn [Store.mem Store.cells Store.next Store.self Store.rng].
  (* question['shuffled_answers'] = all_answers *)
  erewrite bind_Ret by
    (erewrite dict_setitem_eq by lookup_cell; reflexivity).
  rewrite assoc_set_shuffled_answers.
  cbn [Store.mem Store.cells Store.next Store.self Store.rng].
  (* question['correct_index'] = all_answers.index(...) *)
  erewrite bind_Ret by
    (erewrite dict_getitem_eq by lookup_cell;
     rewrite assoc_get_correct_answer; reflexivity).
  erewrite bind_Ret by
    (unfold Store.list_index;
     erewrite bind_Ret by (apply list_items_eq; lookup_cell);
     unfold Store.lift, py_index; rewrite (index_from_fmap Store.VStr);
     unfold py_index in Ei; rewrite Ei; reflexivity).
  erewrite bind_Ret by
    (erewrite dict_setitem_eq by lookup_cell; reflexivity).
  rewrite assoc_set_correct_index.
  cbn [Store.mem Store.cells Store.next Store.self Store.rng].
  eexists _, _. split; [reflexivity|]. split.
  - exists n, l, (S n). split; [done|]. split; lookup_cell.
  - split; [cbn [Store.mem Store.next Store.self]; lia|]. split.
    { exists vs. split; [lookup_cell|].
      eapply Forall2_impl; [|exact Hall]. intros v q'.
      apply question_at_frame; cbn [Store.mem Store.next]; [lia|].
      intros a Ha. lookup_cell. }
    by repeat split.
Qed.

(** *** Every world is held by some store *)

Lemma new_questions_spec qs s :
  exists vs s',
    Store.new_questions qs s = (Ret vs, s')
    /\ Store.self s' = Store.self s
    /\ Store.rng s' = Store.rng s
    /\ Store.next (Store.mem s) <= Store.next (Store.mem s')
    /\ (forall a, a < Store.next (Store.mem s) ->
          Store.cells (Store.mem s') a = Store.cells (Store.mem s) a)
    /\ Forall2 (question_at (Store.mem s')) vs qs.
Proof.
  revert s. induction qs as [|q qs IH]; intros s.
  { exists [], s. by repeat split. }
  set (n := Store.next (Store.mem s)).
  set (s1 := snd (Store.new_question q s)).
  assert (E1 : Store.new_question q s = (Ret (Store.VRef (S n)), s1))
    by reflexivity.
  destruct (IH s1) as (vs & s' & E & Hself & Hrng & Hnext & Hcells & Hall).
  exists (Store.VRef (S n) :: vs), s'. split.
  { simpl. erewrite bind_Ret by exact E1. erewrite bind_Ret by exact E.
    reflexivity. }
  assert (Hn1 : Store.next (Store.mem s1) = S (S n)) by reflexivity.
  assert (Hc1 : Store.cells (Store.mem s1)
                = <[S n := Store.ODict (Store.question_entries q n)]>
                    (<[n := Store.OList
                              (Store.VStr <$> Question.incorrect_answers q)]>
                       (Store.cells (Store.mem s)))) by reflexivity.
  split; [by rewrite Hself|]. split; [by rewrite Hrng|].
  split; [lia|]. split.
  { intros a Ha. rewrite Hcells, Hc1 by lia. lookup_cell. }
  constructor; [|done].
  exists (S n), n. split; [done|]. split; [lia|]. split; [lia|].
  rewrite !Hcells, Hc1 by lia. split; lookup_cell.
Qed.

Lemma represents_embed w : represents (embed w) w.
Proof.
  unfold embed.
  match goal with
  | |- context [Store.new_questions ?qs ?s0] =>
      destruct (new_questions_spec qs s0)
        as (vs & s1 & -> & _ & _ & Hnext & _ & Hall)
  end.
  split; [simpl; lia|]. split; [|by repeat split].
  exists vs. split; [lookup_cell|].
  eapply Forall2_impl; [|exact Hall]. intros v q.
  apply question_at_frame; cbn [Store.mem Store.next]; [lia|].
  intros a Ha. lookup_cell.
Qed.

(** On the store built from any world, the store-level function returns
    what the engine returns on that world. *)
Corollary get_current_question_on_embed w :
  match get_current_question w with
  | (Ret None, w1) =>
      w1 = w
      /\ Store.get_current_question (embed w) = (Ret Store.VNone, embed w)
  | (Ret (Some p), w1) =>
      exists v s',
        Store.get_current_question (embed w) = (Ret v, s')
        /\ presented_at (Store.mem s') v p
        /\ represents s' w1
  | (Raise _, _) => False
  end.
Proof. apply get_current_question_refines, represents_embed. Qed.

(** * The claims of the specification *)

(** ** Submitting once the session is complete *)

(** C3. When [current_question >= len(questions)] (every question answered,
    or none loaded) [submit_answer] returns [False] and changes nothing:
    score, position, answer history, timing log and all the rest of the
    world are as before. *)
Theorem submit_answer_complete_is_noop w answer_index time_taken :
  length (questions (engine w)) <= current_question (engine w) ->
  submit_answer answer_index time_taken w = (Ret false, w).
Proof. apply submit_answer_done. Qed.

Lemma submit_answer_complete_is_noop_witness :
  (current_question (engine finished_world) = 3
   /\ length (questions (engine finished_world)) = 3
   /\ submit_answer 2 (3 # 2) finished_world = (Ret false, finished_world))
  /\ (let w := snd (load_questions [] 10%Q fresh_world) in
      submit_answer 2 (3 # 2) w = (Ret false, w)).
Proof.
  split; [split; [reflexivity|split; [reflexivity|]]|].
  - apply (submit_answer_complete_is_noop finished_world 2 (3 # 2)).
    vm_compute. lia.
  - apply (submit_answer_complete_is_noop
             (snd (load_questions [] 10%Q fresh_world)) 2 (3 # 2)).
    simpl. lia.
Defined.

(** ** Loading *)

(** C9. [load_questions] resets the whole session for every list, the empty
    one included: position 0, score 0, empty timing log and answer history,
    the questions exactly the given list, the start time the clock reading;
    and after loading the empty list [get_current_question] returns [None]
    at once. *)
Theorem load_questions_resets qs now w :
  load_questions qs now w
  = (Ret tt,
     {| engine := {| questions := qs; current_question := 0; score := 0;
                     start_time := Some now; question_times := [];
                     user_answers := [] |};
        rng := rng w |})
  /\ fst (get_current_question (snd (load_questions [] now w))) = Ret None.
Proof. split; reflexivity. Qed.

(** ** Frame of [get_current_question] *)

(** C10. [get_current_question] changes no engine state, whatever it
    returns. In the engine of the first part every attribute (question
    list, position, score, timing log, answer history, start time) is the
    same after the call. On the store of objects the attributes are the
    same and every object that existed before the call (the list of
    questions, each stored question dictionary, each list of incorrect
    answers) is the same: the shuffle and the two added keys land in the
    copy and in the new list. Only the generator of [random] moves. *)
Theorem get_current_question_changes_no_state :
  (forall w, engine (snd (get_current_question w)) = engine w)
  /\ (forall s,
        let s' := snd (Store.get_current_question s) in
        Store.self s' = Store.self s
        /\ forall a, a < Store.next (Store.mem s) ->
             Store.cells (Store.mem s') a = Store.cells (Store.mem s) a).
Proof.
  split; [exact get_current_question_engine|]. intros s s'.
  destruct (keeps_get_current_question (Store.next (Store.mem s)) s)
    as [(Hself & _ & Hcells) _]; [lia|].
  split; [exact Hself|exact Hcells].
Qed.

Lemma get_current_question_changes_no_state_witness :
  let s := embed sample_world in
  let s' := snd (Store.get_current_question s) in
  engine (snd (get_current_question sample_world)) = engine sample_world
  /\ Store.self s' = Store.self s
  /\ 1 < Store.next (Store.mem s)
  /\ Store.cells (Store.mem s') 1 = Store.cells (Store.mem s) 1.
Proof.
  destruct get_current_question_changes_no_state as [Hpure Hstore].
  destruct (Hstore (embed sample_world)) as [Hself Hcells].
  split; [apply Hpure|]. split; [exact Hself|].
  assert (Hlt : 1 < Store.next (Store.mem (embed sample_world)))
    by (vm_compute; lia).
  split; [exact Hlt|]. exact (Hcells 1 Hlt).
Defined.

Local Open Scope string_scope.

(** The first question of the sample session on the store: the stored
    dictionary (address 1) and its incorrect answers (address 0) are as
    before; the result is a new dictionary (address 7) with a new,
    shuffled list (address 8). *)
Example get_current_question_on_sample_store :
  let s := embed sample_world in
  let s' := snd (Store.get_current_question s) in
  fst (Store.get_current_question s) = Ret (Store.VRef 7)
  /\ Store.next (Store.mem s) = 7
  /\ Store.cells (Store.mem s') 1
     = Store.ODict (Store.question_entries q_capital 0)
  /\ Store.cells (Store.mem s') 0
     = Store.OList [Store.VStr "Rome"; Store.VStr "Madrid";
                    Store.VStr "Berlin"]
  /\ Store.cells (Store.mem s') 7
     = Store.ODict (Store.question_entries q_capital 0
                    ++ [("shuffled_answers", Store.VRef 8);
                        ("correct_index", Store.VInt 0)])
  /\ Store.cells (Store.mem s') 8
     = Store.OList [Store.VStr "Paris"; Store.VStr "Rome";
                    Store.VStr "Madrid"; Store.VStr "Berlin"].
Proof. repeat split. Qed.

Local Close Scope string_scope.

(** ** Invariants of a session *)

(** C4. In every state reached from a [load_questions] by any sequence of
    calls ([load_questions] again, [get_current_question], [submit_answer]
    with any index and time, [get_progress], [get_final_results]), the score
    is at most the number of questions and equals the number of answer
    records whose [is_correct] is true. *)
Theorem score_counts_correct_records w0 qs now (cs : list call) :
  let e := engine (run cs (snd (load_questions qs now w0))) in
  score e <= length (questions e)
  /\ score e = count_correct (user_answers e).
Proof.
  intros e.
  assert (H : consistent e) by apply consistent_run, consistent_load.
  split; [by apply consistent_score_le|]. apply H.
Qed.

(** C5. In every state reached after a [load_questions],
    [get_current_question] returns [None] exactly when the position equals
    the number of loaded questions; otherwise it returns (without raising)
    a presented question built on the stored question at the position. *)
Theorem get_current_question_none_iff_complete w0 qs now (cs : list call) :
  let w := run cs (snd (load_questions qs now w0)) in
  (fst (get_current_question w) = Ret None
   <-> current_question (engine w) = length (questions (engine w)))
  /\ (current_question (engine w) <> length (questions (engine w)) ->
      exists p, fst (get_current_question w) = Ret (Some p)
                /\ questions (engine w) !! current_question (engine w)
                   = Some (Presented.base p)).
Proof.
  intros w.
  assert (H : consistent (engine w)) by apply consistent_run, consistent_load.
  destruct H as (_ & _ & _ & Hle).
  destruct (decide (current_question (engine w)
                    = length (questions (engine w)))) as [Heq|Hne].
  - split; [|done]. split; [done|]. intros _.
    rewrite get_current_question_done by lia. done.
  - destruct (lookup_lt_is_Some_2 (questions (engine w))
                (current_question (engine w))) as [q Hq]; [lia|].
    destruct (get_current_question_active w q Hq)
      as (sh & g' & ci & _ & _ & _ & _ & E).
    split.
    + rewrite E. simpl. split; [discriminate|done].
    + intros _. eexists. rewrite E. split; [reflexivity|]. done.
Qed.

Lemma get_current_question_none_iff_complete_witness :
  (let w := run [InSession (SubmitAnswer 0 (3 # 2))] sample_world in
   current_question (engine w) <> length (questions (engine w))
   /\ exists p, fst (get_current_question w) = Ret (Some p)
                /\ questions (engine w) !! current_question (engine w)
                   = Some (Presented.base p))
  /\ (let w := run (map InSession sample_answers) sample_world in
      current_question (engine w) = length (questions (engine w))
      /\ fst (get_current_question w) = Ret None).
Proof.
  split.
  - destruct (get_current_question_none_iff_complete
                fresh_world sample_questions 10%Q
                [InSession (SubmitAnswer 0 (3 # 2))]) as [_ Hsome].
    assert (Hne : current_question
                    (engine (run [InSession (SubmitAnswer 0 (3 # 2))]
                                 sample_world))
                  <> length (questions
                       (engine (run [InSession (SubmitAnswer 0 (3 # 2))]
                                    sample_world))))
      by (vm_compute; lia).
    split; [exact Hne|]. exact (Hsome Hne).
  - destruct (get_current_question_none_iff_complete
                fresh_world sample_questions 10%Q
                (map InSession sample_answers)) as [Hnone _].
    assert (Heq : current_question
                    (engine (run (map InSession sample_answers) sample_world))
                  = length (questions
                      (engine (run (map InSession sample_answers)
                                   sample_world))))
      by reflexivity.
    split; [exact Heq|]. exact (proj2 Hnone Heq).
Defined.

(** C8. After [load_questions(qs)], whatever calls are made in the session,
    the second component of [get_progress] stays [len(qs)], and the first
    component never decreases as further calls are made and never exceeds
    the second. *)
Theorem progress_total_constant_position_monotone
    w0 qs now (cs cs' : list session_call) :
  let w := run_session cs (snd (load_questions qs now w0)) in
  let w' := run_session cs' w in
  exists pos pos',
    fst (get_progress w) = Ret (pos, length qs)
    /\ fst (get_progress w') = Ret (pos', length qs)
    /\ pos <= pos'
    /\ pos' <= length qs.
Proof.
  intros w w'.
  assert (Hq : questions (engine w) = qs) by apply questions_run_session.
  assert (Hq' : questions (engine w') = qs).
  { unfold w'. by rewrite questions_run_session. }
  assert (H' : consistent (engine w')).
  { do 2 apply consistent_run_session. apply consistent_load. }
  exists (current_question (engine w)), (current_question (engine w')).
  rewrite !get_progress_eq. simpl. rewrite Hq, Hq'.
  split; [done|]. split; [done|].
  split; [apply current_question_run_session|].
  destruct H' as (_ & _ & _ & Hle). by rewrite Hq' in Hle.
Qed.

(** ** Grading *)

(** C2. In a session in progress, [submit_answer] grades against the
    presented question that [get_current_question] derives from the same
    state: for an index inside the shuffled answers it returns whether the
    index is that question's [correct_index], adds one to the score exactly
    in that case, appends one answer record (with the shuffled answer at the
    index) and one time, and moves the position by one. *)
Theorem submit_answer_grades_presented_question w answer_index time_taken :
  current_question (engine w) < length (questions (engine w)) ->
  exists p w1,
    get_current_question w = (Ret (Some p), w1)
    /\ ((0 <= answer_index
         < Z.of_nat (length (Presented.shuffled_answers p)))%Z ->
        exists user_answer,
          Presented.shuffled_answers p !! Z.to_nat answer_index
          = Some user_answer
          /\ let is_correct :=
               (answer_index =? Z.of_nat (Presented.correct_index p))%Z in
             submit_answer answer_index time_taken w
             = (Ret is_correct,
                {| engine :=
                     {| questions := questions (engine w);
                        current_question := current_question (engine w) + 1;
                        score := if is_correct then score (engine w) + 1
                                 else score (engine w);
                        start_time := start_time (engine w);
                        question_times :=
                          question_times (engine w) ++ [time_taken];
                        user_answers :=
                          user_answers (engine w)
                          ++ [answer_record p user_answer is_correct
                                            time_taken] |};
                   rng := rng w1 |})).
Proof.
  intros Hact. destruct (lookup_lt_is_Some_2 _ _ Hact) as [q Hq].
  destruct (submit_answer_active w answer_index time_taken q Hq)
    as (p & w1 & E & _ & _ & _ & _ & Es).
  exists p, w1. split; [done|]. intros Hidx.
  destruct (py_getitem_nonneg (Presented.shuffled_answers p) answer_index Hidx)
    as (ua & Hua & Eg).
  exists ua. split; [done|]. rewrite Es, Eg. reflexivity.
Qed.

(** C1, amended. In a session in progress, an index below 0 that Python
    still accepts (from [-len(shuffled_answers)] to [-1], the sentinel
    included) is graded incorrect without raising: [False] is returned, the
    score is unchanged, one answer record with [is_correct] false and one
    time are appended and the position moves by one. Any other index
    outside the shuffled answers raises [IndexError] and leaves the engine
    as it was. *)
Theorem submit_answer_index_outside_answers w answer_index time_taken :
  current_question (engine w) < length (questions (engine w)) ->
  exists p w1,
    get_current_question w = (Ret (Some p), w1)
    /\ let n := Z.of_nat (length (Presented.shuffled_answers p)) in
       ((- n <= answer_index < 0)%Z ->
        exists user_answer,
          submit_answer answer_index time_taken w
          = (Ret false,
             {| engine :=
                  {| questions := questions (engine w);
                     current_question := current_question (engine w) + 1;
                     score := score (engine w);
                     start_time := start_time (engine w);
                     question_times :=
                       question_times (engine w) ++ [time_taken];
                     user_answers :=
                       user_answers (engine w)
                       ++ [answer_record p user_answer false time_taken] |};
                rng := rng w1 |}))
       /\ ((answer_index < - n \/ n <= answer_index)%Z ->
           submit_answer answer_index time_taken w = (Raise IndexError, w1)
           /\ engine w1 = engine w).
Proof.
  intros Hact. destruct (lookup_lt_is_Some_2 _ _ Hact) as [q Hq].
  destruct (submit_answer_active w answer_index time_taken q Hq)
    as (p & w1 & E & Hw1 & _ & _ & _ & Es).
  exists p, w1. split; [done|]. split.
  - intros Hidx.
    destruct (py_getitem_negative (Presented.shuffled_answers p)
                answer_index Hidx) as (ua & _ & Eg).
    exists ua. rewrite Es, Eg.
    destruct (Z.eqb_spec answer_index
                (Z.of_nat (Presented.correct_index p))); [lia|].
    reflexivity.
  - intros Hidx. rewrite Es, py_getitem_out_of_range by done. done.
Qed.

Local Open Scope string_scope.

Lemma submit_answer_grades_presented_question_witness :
  current_question (engine sample_world)
  < length (questions (engine sample_world))
  /\ exists p w1,
       get_current_question sample_world = (Ret (Some p), w1)
       /\ Presented.shuffled_answers p = ["Paris"; "Rome"; "Madrid"; "Berlin"]
       /\ Presented.correct_index p = 0
       /\ fst (submit_answer 0 (3 # 2) sample_world) = Ret true
       /\ score (engine (snd (submit_answer 0 (3 # 2) sample_world))) = 1
       /\ fst (submit_answer 2 (3 # 2) sample_world) = Ret false
       /\ score (engine (snd (submit_answer 2 (3 # 2) sample_world))) = 0.
Proof.
  split; [vm_compute; lia|].
  destruct (submit_answer_grades_presented_question sample_world 0 (3 # 2))
    as (p & w1 & E & H0); [vm_compute; lia|].
  destruct (submit_answer_grades_presented_question sample_world 2 (3 # 2))
    as (p' & w1' & E' & H2); [vm_compute; lia|].
  rewrite E in E'. injection E' as <- <-.
  exists p, w1. split; [exact E|].
  vm_compute in E. injection E as <- <-.
  destruct H0 as (ua0 & _ & ->); [simpl; lia|].
  destruct H2 as (ua2 & _ & ->); [simpl; lia|].
  repeat split.
Defined.

(** C1 as stated fails: with four shuffled answers, index 4 is outside
    them and [submit_answer] raises [IndexError]. *)
Lemma submit_answer_index_4_raises :
  current_question (engine sample_world)
  < length (questions (engine sample_world))
  /\ (exists p w1,
        get_current_question sample_world = (Ret (Some p), w1)
        /\ length (Presented.shuffled_answers p) = 4)
  /\ fst (submit_answer 4 (3 # 2) sample_world) = Raise IndexError.
Proof.
  split; [vm_compute; lia|]. split; [|reflexivity].
  eexists _, _. split; reflexivity.
Qed.

(** Whatever the index, the text recorded as the user's answer is one of
    the shuffled answers: the engine has no marker for "no answer". *)
Lemma submit_answer_records_a_shuffled_answer
    w answer_index time_taken p w1 b w2 :
  get_current_question w = (Ret (Some p), w1) ->
  submit_answer answer_index time_taken w = (Ret b, w2) ->
  exists user_answer,
    user_answer ∈ Presented.shuffled_answers p
    /\ user_answers (engine w2)
       = (user_answers (engine w)
          ++ [answer_record p user_answer b time_taken])%list.
Proof.
  intros E Es.
  destruct (le_lt_dec (length (questions (engine w)))
                      (current_question (engine w))) as [Hdone|Hact].
  { rewrite get_current_question_done in E by done. discriminate. }
  destruct (lookup_lt_is_Some_2 _ _ Hact) as [q Hq].
  destruct (submit_answer_active w answer_index time_taken q Hq)
    as (p' & w1' & E' & _ & _ & _ & _ & Es').
  rewrite E in E'. injection E' as <- <-. rewrite Es' in Es.
  destruct (py_getitem (Presented.shuffled_answers p) answer_index)
    as [ua|e] eqn:Eg; [|discriminate].
  injection Es as <- <-. exists ua. split; [|done].
  by apply py_getitem_Ret in Eg as [_ ?].
Qed.

(** With the sentinel -1 nothing is raised, and what is recorded as the
    user's answer is the last shuffled answer, not a marker of no answer. *)
Example submit_answer_minus_one_records_last_answer :
  fst (submit_answer (-1) (3 # 2) sample_world) = Ret false
  /\ user_answers (engine (snd (submit_answer (-1) (3 # 2) sample_world)))
     = [ {| Answer.question := "What is the capital of France?";
            Answer.user_answer := "Berlin";
            Answer.correct_answer := "Paris";
            Answer.is_correct := false;
            Answer.time_taken := 3 # 2 |} ].
Proof. split; reflexivity. Qed.

Lemma submit_answer_index_outside_answers_witness :
  current_question (engine sample_world)
  < length (questions (engine sample_world))
  /\ exists p w1,
       get_current_question sample_world = (Ret (Some p), w1)
       /\ length (Presented.shuffled_answers p) = 4
       /\ fst (submit_answer (-1) (3 # 2) sample_world) = Ret false
       /\ score (engine (snd (submit_answer (-1) (3 # 2) sample_world))) = 0
       /\ current_question
            (engine (snd (submit_answer (-1) (3 # 2) sample_world))) = 1
       /\ submit_answer 7 (3 # 2) sample_world = (Raise IndexError, w1)
       /\ engine w1 = engine sample_world.
Proof.
  split; [vm_compute; lia|].
  destruct (submit_answer_index_outside_answers sample_world (-1) (3 # 2))
    as (p & w1 & E & Hneg & _); [vm_compute; lia|].
  destruct (submit_answer_index_outside_answers sample_world 7 (3 # 2))
    as (p' & w1' & E' & _ & Hout); [vm_compute; lia|].
  rewrite E in E'. injection E' as <- <-.
  exists p, w1. split; [exact E|].
  vm_compute in E. injection E as <- <-.
  destruct Hneg as (ua & ->); [simpl; lia|].
  destruct Hout as (-> & _); [simpl; lia|].
  repeat split.
Defined.

Local Close Scope string_scope.

(** ** Shuffled answers *)

Lemma get_current_question_Some w p w1 :
  get_current_question w = (Ret (Some p), w1) ->
  questions (engine w) !! current_question (engine w)
  = Some (Presented.base p)
  /\ Presented.shuffled_answers p ≡ₚ all_answers (Presented.base p)
  /\ Presented.shuffled_answers p !! Presented.correct_index p
     = Some (Question.correct_answer (Presented.base p)).
Proof.
  intros E.
  destruct (le_lt_dec (length (questions (engine w)))
                      (current_question (engine w))) as [Hdone|Hact].
  { rewrite get_current_question_done in E by done. discriminate. }
  destruct (lookup_lt_is_Some_2 _ _ Hact) as [q Hq].
  destruct (get_current_question_active w q Hq)
    as (sh & g' & ci & _ & Hperm & _ & Hci & E').
  rewrite E' in E. injection E as <- <-. simpl.
  split; [done|]. split; done.
Qed.

(** C6. Every presented question returned by [get_current_question] has
    shuffled answers that are a permutation of the incorrect answers plus
    the correct answer, and a [correct_index] at which the shuffled answers
    hold the correct answer; when the correct answer is not among the
    incorrect ones it occurs exactly once. *)
Theorem presented_answers_are_shuffled w p w1 :
  get_current_question w = (Ret (Some p), w1) ->
  Question.correct_answer (Presented.base p)
    ∉ Question.incorrect_answers (Presented.base p) ->
  Presented.shuffled_answers p
    ≡ₚ Question.incorrect_answers (Presented.base p)
       ++ [Question.correct_answer (Presented.base p)]
  /\ count_occ String.eq_dec (Presented.shuffled_answers p)
       (Question.correct_answer (Presented.base p)) = 1
  /\ Presented.shuffled_answers p !! Presented.correct_index p
     = Some (Question.correct_answer (Presented.base p)).
Proof.
  intros E Hnot.
  destruct (get_current_question_Some w p w1 E) as (_ & Hperm & Hci).
  split; [exact Hperm|]. split; [|exact Hci].
  rewrite (proj1 (Permutation_count_occ String.eq_dec _ _) Hperm).
  unfold all_answers. rewrite count_occ_app. simpl.
  destruct (String.eq_dec _ _) as [_|Hne]; [|done].
  rewrite (proj1 (count_occ_not_In String.eq_dec _ _)); [done|].
  by rewrite <- list_elem_of_In.
Qed.

Local Open Scope string_scope.

Lemma presented_answers_are_shuffled_witness :
  exists p w1,
    get_current_question sample_world = (Ret (Some p), w1)
    /\ Presented.base p = q_capital
    /\ Presented.shuffled_answers p ≡ₚ ["Rome"; "Madrid"; "Berlin"; "Paris"]
    /\ count_occ String.eq_dec (Presented.shuffled_answers p) "Paris" = 1
    /\ Presented.shuffled_answers p !! Presented.correct_index p
       = Some "Paris".
Proof.
  eexists _, _. split; [reflexivity|]. split; [reflexivity|].
  apply (presented_answers_are_shuffled sample_world _ _ eq_refl).
  simpl. intros H. repeat (apply elem_of_cons in H as [H|H]; [discriminate|]).
  by apply not_elem_of_nil in H.
Defined.

Local Close Scope string_scope.

(** ** Final results *)

(** What [get_final_results] returns, attribute by attribute, when the
    score does not exceed the number of questions. *)
Lemma get_final_results_Ret now w :
  score (engine w) <= length (questions (engine w)) ->
  exists r,
    get_final_results now w = (Ret r, w)
    /\ Results.score r = score (engine w)
    /\ Results.total_questions r = length (questions (engine w))
    /\ Results.user_answers r = user_answers (engine w)
    /\ Results.total_time r
       = match start_time (engine w) with
         | Some t => if Qeq_bool t 0 then 0%Q else (now - t)%Q
         | None => 0%Q
         end
    /\ Results.percentage r
       = match questions (engine w) with
         | [] => 0%Q
         | _ :: _ =>
             float_mul
               (Float64.round64
                  (inject_Z (Z.of_nat (score (engine w)))
                   / inject_Z (Z.of_nat (length (questions (engine w))))))
               100
         end
    /\ Results.average_time_per_question r
       = match question_times (engine w) with
         | [] => 0%Q
         | _ :: _ =>
             Float64.round64
               (py_sum (question_times (engine w))
                / py_float (Z.of_nat (length (question_times (engine w)))))
         end.
Proof.
  intros Hle.
  unfold get_final_results, mbind, M_bind, bind, get_self, lift, ret.
  destruct (questions (engine w)) as [|q qs] eqn:Eq;
    destruct (question_times (engine w)) as [|t ts] eqn:Et;
    rewrite ?float_truediv_Ret by (simpl; lia);
    rewrite ?int_truediv_ratio by (simpl in *; lia);
    eexists; (split; [reflexivity|]); simpl; by repeat split.
Qed.

(** The only exception [get_final_results] can raise is the overflow of
    [score / len]. *)
Lemma get_final_results_raises now w e :
  fst (get_final_results now w) = Raise e -> e = OverflowError.
Proof.
  unfold get_final_results, mbind, M_bind, bind, get_self, lift, ret.
  destruct (question_times (engine w)) as [|t ts];
    rewrite ?float_truediv_Ret by (simpl; lia);
    (destruct (questions (engine w)) as [|q qs]; [discriminate|]);
    unfold int_truediv;
    (destruct (Z.eqb_spec (Z.of_nat (length (q :: qs))) 0) as [H0|_];
       [simpl in H0; lia|]);
    cbv zeta; destruct (Float64.overflows _); simpl; congruence.
Qed.

(** C7. In every state [get_final_results] changes nothing and does not
    divide by zero. When the score does not exceed the number of questions,
    as in every state that the methods reach, it returns. Its percentage is
    then 0 when no question is loaded, and otherwise the binary64 value of
    [(score / total) * 100], the quotient rounded and the product rounded
    again: 0 for a score of 0, 100 for a full score, and for a list of fewer
    than [2^63] questions within a relative error of [3 * 2^-53] of
    [100 * score / total]. Its average time is 0 when no time was
    recorded. *)
Theorem get_final_results_aggregates now w :
  fst (get_final_results now w) <> Raise ZeroDivisionError
  /\ snd (get_final_results now w) = w
  /\ (score (engine w) <= length (questions (engine w)) ->
      let s := inject_Z (Z.of_nat (score (engine w))) in
      let n := inject_Z (Z.of_nat (length (questions (engine w)))) in
      exists r,
        get_final_results now w = (Ret r, w)
        /\ Results.score r = score (engine w)
        /\ Results.total_questions r = length (questions (engine w))
        /\ (Results.total_questions r = 0 -> Results.percentage r = 0%Q)
        /\ (Results.total_questions r <> 0 ->
            Results.percentage r
            = Float64.round64 (Float64.round64 (s / n) * 100)
            /\ (Results.score r = 0 -> Results.percentage r = 0%Q)
            /\ (Results.score r = Results.total_questions r ->
                Results.percentage r = 100%Q)
            /\ ((Z.of_nat (Results.total_questions r) < 2 ^ 63)%Z ->
                (Qabs (Results.percentage r - 100 * s / n)
                 <= 100 * s / n * (3 * 2 ^ (-53)))%Q))
        /\ (question_times (engine w) = [] ->
            Results.average_time_per_question r = 0%Q)).
Proof.
  split; [|split].
  { intros H. by apply get_final_results_raises in H. }
  { apply get_final_results_world. }
  intros Hle s n.
  destruct (get_final_results_Ret now w Hle)
    as (r & E & Hs & Ht & _ & _ & Hp & Ha).
  exists r. split; [exact E|]. split; [exact Hs|]. split; [exact Ht|].
  rewrite Hs, Ht.
  split; [|split].
  - intros H0. rewrite Hp.
    by destruct (questions (engine w)); [|discriminate H0].
  - intros Hne. rewrite Hp.
    destruct (questions (engine w)) as [|q qs] eqn:Eq; [done|].
    assert (Hpos : 0 < length (q :: qs)) by (simpl; lia).
    fold n. fold s.
    split; [|split; [|split]].
    + unfold float_mul. by rewrite py_float_100.
    + intros H0. unfold s, n. rewrite H0. apply percentage_of_no_score.
    + intros Hfull. unfold s, n. rewrite Hfull.
      by apply percentage_of_full_score.
    + intros H63.
      assert (Hq : (100 * s / n == 100 * (s / n))%Q)
        by (unfold Qdiv; ring).
      rewrite Hq. by apply percentage_tolerance.
  - intros Hnil. rewrite Ha. by rewrite Hnil.
Qed.

Lemma get_final_results_aggregates_witness :
  (exists r,
     get_final_results 50 finished_world = (Ret r, finished_world)
     /\ Results.total_questions r <> 0
     /\ Results.percentage r = (2345624805922133 # 35184372088832)%Q
     /\ (Qabs (Results.percentage r - 100 * 2 / 3)
         <= 100 * 2 / 3 * (3 * 2 ^ (-53)))%Q)
  /\ (let w := snd (load_questions [] 10%Q fresh_world) in
      exists r,
        get_final_results 50 w = (Ret r, w)
        /\ Results.percentage r = 0%Q
        /\ Results.average_time_per_question r = 0%Q).
Proof.
  split.
  - destruct (get_final_results_aggregates 50 finished_world)
      as (_ & _ & H).
    destruct H as (r & E & Hs & Ht & _ & Hpct & _); [vm_compute; lia|].
    assert (Hne : Results.total_questions r <> 0)
      by (rewrite Ht; vm_compute; lia).
    destruct (Hpct Hne) as (Hp & _ & _ & Htol).
    exists r. split; [exact E|]. split; [exact Hne|]. split.
    + rewrite Hp. vm_compute. reflexivity.
    + apply Htol. rewrite Ht. vm_compute. reflexivity.
  - destruct (get_final_results_aggregates 50
                (snd (load_questions [] 10%Q fresh_world)))
      as (_ & _ & H).
    destruct H as (r & E & _ & Ht & Hzero & _ & Havg); [vm_compute; lia|].
    exists r. split; [exact E|].
    split; [apply Hzero; rewrite Ht; reflexivity|apply Havg; reflexivity].
Defined.

(** For the sample session, 2 of 3, the percentage returned is
    66.66666666666666, the double next below 200/3. It is not 200/3, and
    it is not the double nearest to 200/3 either, 66.66666666666667, which
    is what [100 * score / total] gives when it is evaluated in floats. *)
Lemma get_final_results_percentage_2_of_3 :
  exists r,
    get_final_results 50 finished_world = (Ret r, finished_world)
    /\ Results.score r = 2
    /\ Results.total_questions r = 3
    /\ Results.percentage r = (2345624805922133 # 35184372088832)%Q
    /\ ~ (Results.percentage r == 100 * 2 / 3)%Q
    /\ ~ (Results.percentage r == Float64.round64 (100 * 2 / 3))%Q.
Proof.
  destruct (get_final_results_Ret 50 finished_world)
    as (r & E & Hs & Ht & _ & _ & Hp & _); [vm_compute; lia|].
  exists r. split; [exact E|]. split; [exact Hs|]. split; [exact Ht|].
  assert (Hv : Results.percentage r = (2345624805922133 # 35184372088832)%Q)
    by (rewrite Hp; vm_compute; reflexivity).
  split; [exact Hv|]. rewrite Hv.
  split; apply Qeq_bool_neq; vm_compute; reflexivity.
Qed.

(** ** The sample session *)

(** Three questions, the first and the third answered correctly and the
    second timed out: the score is 2 of 3, the percentage
    66.66666666666666 and the average time 11.333333333333334. *)
Example sample_session_results :
  exists r,
    get_final_results 50 finished_world = (Ret r, finished_world)
    /\ Results.score r = 2
    /\ Results.total_questions r = 3
    /\ Results.percentage r = (2345624805922133 # 35184372088832)%Q
    /\ Results.total_time r = 40%Q
    /\ Results.average_time_per_question r
       = (6380099472108203 # 562949953421312)%Q
    /\ map Answer.is_correct (Results.user_answers r) = [true; false; true].
Proof.
  destruct (get_final_results_Ret 50 finished_world)
    as (r & E & Hs & Ht & Hu & Htime & Hp & Ha); [vm_compute; lia|].
  exists r. split; [exact E|]. split; [exact Hs|]. split; [exact Ht|].
  split; [rewrite Hp; vm_compute; reflexivity|].
  split; [rewrite Htime; vm_compute; reflexivity|].
  split; [rewrite Ha; vm_compute; reflexivity|].
  rewrite Hu. reflexivity.
Qed.

(** The rounding agrees with the binary64 operations of the standard
    library ([SpecFloat]) on the numbers of the sample session and on a
    subnormal quotient with a tie. *)
Example round64_agrees_with_SpecFloat :
  let div (a b : Z) :=
    SpecFloat.SFdiv 53 1024 (Float64.SFofZ a) (Float64.SFofZ b) in
  let times100 x := SpecFloat.SFmul 53 1024 x (Float64.SFofZ 100) in
  (Float64.round64 (2 # 3) == Float64.SF2Q (div 2%Z 3%Z))%Q
  /\ (Float64.round64 (Float64.round64 (2 # 3) * 100)
      == Float64.SF2Q (times100 (div 2%Z 3%Z)))%Q
  /\ (Float64.round64 (Float64.round64 (29 # 50) * 100)
      == Float64.SF2Q (times100 (div 29%Z 50%Z)))%Q
  /\ (Float64.round64 (200 # 3) == Float64.SF2Q (div 200%Z 3%Z))%Q
  /\ (Float64.round64 (34 # 3) == Float64.SF2Q (div 34%Z 3%Z))%Q
  /\ (Float64.round64 (-1 # 10) == Float64.SF2Q (div (-1)%Z 10%Z))%Q
  /\ (Float64.round64 (3 # 2 ^ 1075)
      == Float64.SF2Q
           (SpecFloat.SFdiv 53 1024 (Float64.SFofZ 3)
              (SpecFloat.S754_finite false (2 ^ 1075)%positive 0%Z)))%Q.
Proof. vm_compute. by repeat split. Qed.

(** For every total up to 50 and every score up to the total, the
    percentage is the one that the standard library's binary64 division and
    multiplication give. *)
Example percentage_agrees_with_SpecFloat :
  forallb
    (fun n =>
       forallb
         (fun s =>
            Qeq_bool
              (float_mul
                 (Float64.round64
                    (inject_Z (Z.of_nat s) / inject_Z (Z.of_nat n))) 100)
              (Float64.SF2Q
                 (SpecFloat.SFmul 53 1024
                    (SpecFloat.SFdiv 53 1024
                       (Float64.SFofZ (Z.of_nat s))
                       (Float64.SFofZ (Z.of_nat n)))
                    (Float64.SFofZ 100))))
         (seq 0 (S n)))
    (seq 1 50)
  = true.
Proof. vm_compute. reflexivity. Qed.

(** 29 of 50 gives 57.99999999999999, though 58 is a double. *)
Example percentage_29_of_50 :
  exists ratio,
    int_truediv 29 50 = Ret ratio
    /\ float_mul ratio 100 = (8162774324609023 # 140737488355328)%Q
    /\ (float_mul ratio 100 < 58)%Q.
Proof. eexists. split; [vm_compute; reflexivity|]. by vm_compute. Qed.

(** The shuffle is derived anew by every call. When the caller first asks
    for the question and then submits the index it was shown as correct,
    [submit_answer] grades against another shuffle, and here it grades the
    displayed correct index (0) as incorrect. *)
Example displayed_index_graded_on_another_shuffle :
  exists p w1,
    get_current_question sample_world = (Ret (Some p), w1)
    /\ Presented.correct_index p = 0
    /\ fst (submit_answer 0 (3 # 2) w1) = Ret false.
Proof. eexists _, _. repeat split. Qed.

(** * Further properties of the engine *)

(** ** What a graded submission stores *)

Lemma exec_session_graded c w :
  engine (exec_session c w) = engine w
  \/ exists q a,
       questions (engine w) !! current_question (engine w) = Some q
       /\ record_of q a
       /\ engine (exec_session c w) = graded (engine w) a.
Proof.
  destruct c as [|answer_index time_taken| |now]; simpl.
  - left. apply get_current_question_engine.
  - destruct (le_lt_dec (length (questions (engine w)))
                        (current_question (engine w))) as [Hdone|Hact].
    { left. by rewrite submit_answer_done. }
    destruct (lookup_lt_is_Some_2 _ _ Hact) as [q Hq].
    destruct (submit_answer_active w answer_index time_taken q Hq)
      as (p & w1 & _ & Hw1 & Hbase & Hperm & Hci & E).
    rewrite E.
    destruct (py_getitem (Presented.shuffled_answers p) answer_index)
      as [ua|e] eqn:Eg; [|by left].
    right. exists q. eexists. split; [done|]. split; [|reflexivity].
    unfold record_of, answer_record. simpl. rewrite Hbase.
    split; [done|]. split; [done|]. split.
    + rewrite <- Hperm. by apply py_getitem_Ret in Eg as [_ ?].
    + intros Heq. apply Z.eqb_eq in Heq. subst answer_index.
      pose proof (lookup_lt_Some _ _ _ Hci) as Hlt.
      destruct (py_getitem_nonneg (Presented.shuffled_answers p)
                  (Z.of_nat (Presented.correct_index p)))
        as (a & Ha & Ea); [lia|].
      rewrite Nat2Z.id in Ha. congruence.
  - by left.
  - left. by rewrite get_final_results_world.
Qed.

Lemma aligned_graded e q a :
  questions e !! current_question e = Some q ->
  record_of q a -> aligned e -> aligned (graded e a).
Proof.
  intros Hq Ha [Hall Htimes]. unfold aligned, graded. simpl.
  rewrite Nat.add_1_r, (take_S_r _ _ _ Hq), Htimes, fmap_app.
  split; [|done]. apply Forall2_app; [done|]. by constructor.
Qed.

Lemma aligned_load qs now w :
  aligned (engine (snd (load_questions qs now w))).
Proof. split; [constructor|done]. Qed.

Lemma aligned_exec_session c w :
  aligned (engine w) -> aligned (engine (exec_session c w)).
Proof.
  intros H. destruct (exec_session_graded c w) as [->|(q & a & Hq & Ha & ->)];
    [done|]. by eapply aligned_graded.
Qed.

Lemma aligned_exec c w : aligned (engine w) -> aligned (engine (exec c w)).
Proof.
  destruct c as [qs now|c].
  - intros _. exact (aligned_load qs now w).
  - exact (aligned_exec_session c w).
Qed.

Lemma aligned_run cs w : aligned (engine w) -> aligned (engine (run cs w)).
Proof.
  revert w. induction cs as [|c cs IH]; intros w H; [done|].
  apply (IH (exec c w)). by apply aligned_exec.
Qed.

(** X1. In every state reached after a [load_questions], the answer history
    has exactly [current_question] records and the timing log is, entry by
    entry, the [time_taken] of those records: the two logs and the position
    advance together. *)
Theorem logs_advance_with_position w0 qs now (cs : list call) :
  let e := engine (run cs (snd (load_questions qs now w0))) in
  length (user_answers e) = current_question e
  /\ length (question_times e) = current_question e
  /\ question_times e = map Answer.time_taken (user_answers e).
Proof.
  intros e.
  assert (Hc : consistent e) by apply consistent_run, consistent_load.
  assert (Ha : aligned e) by apply aligned_run, aligned_load.
  destruct Hc as (_ & Hu & Ht & _). destruct Ha as [_ Htimes]. done.
Qed.

(** X2. In every state reached after a [load_questions], the [i]-th answer
    record belongs to the [i]-th loaded question: it carries that question's
    text and correct answer, and the text recorded as the user's answer is
    one of that question's answers. *)
Theorem history_follows_questions w0 qs now (cs : list call) i a :
  let e := engine (run cs (snd (load_questions qs now w0))) in
  user_answers e !! i = Some a ->
  exists q,
    questions e !! i = Some q
    /\ Answer.question a = Question.question q
    /\ Answer.correct_answer a = Question.correct_answer q
    /\ Answer.user_answer a
         ∈ Question.incorrect_answers q ++ [Question.correct_answer q].
Proof.
  intros e Hi.
  assert (Ha : aligned e) by apply aligned_run, aligned_load.
  destruct Ha as [Hall _].
  destruct (Forall2_lookup_r _ _ _ _ _ Hall Hi) as (q & Hq & Hrec).
  apply lookup_take_Some in Hq as [Hq _].
  destruct Hrec as (H1 & H2 & H3 & _). by exists q.
Qed.

(** X3. In every state reached after a [load_questions], a record marked
    correct names the correct answer: [is_correct] implies that
    [user_answer] and [correct_answer] are the same text. *)
Theorem correct_record_names_correct_answer w0 qs now (cs : list call) a :
  let e := engine (run cs (snd (load_questions qs now w0))) in
  a ∈ user_answers e ->
  Answer.is_correct a = true ->
  Answer.user_answer a = Answer.correct_answer a.
Proof.
  intros e Hin Hc.
  assert (Ha : aligned e) by apply aligned_run, aligned_load.
  destruct Ha as [Hall _].
  apply list_elem_of_lookup in Hin as [i Hi].
  destruct (Forall2_lookup_r _ _ _ _ _ Hall Hi) as (q & _ & Hrec).
  destruct Hrec as (_ & _ & _ & H). by apply H.
Qed.

Local Open Scope string_scope.

Lemma history_follows_questions_witness :
  let e := engine (run (InSession <$> sample_answers) sample_world) in
  exists a,
    user_answers e !! 1 = Some a
    /\ questions e !! 1 = Some q_planet
    /\ Answer.question a = "Which planet is known as the Red Planet?"
    /\ Answer.correct_answer a = "Mars"
    /\ Answer.user_answer a ∈ ["Venus"; "Jupiter"; "Saturn"; "Mars"].
Proof.
  set (a := {| Answer.question := "Which planet is known as the Red Planet?";
               Answer.user_answer := "Jupiter";
               Answer.correct_answer := "Mars";
               Answer.is_correct := false;
               Answer.time_taken := 30 |}).
  assert (Hi : user_answers
                 (engine (run (InSession <$> sample_answers)
                              (snd (load_questions sample_questions 10%Q
                                                   fresh_world)))) !! 1
               = Some a) by (vm_compute; reflexivity).
  exists a. split; [exact Hi|].
  destruct (history_follows_questions fresh_world sample_questions 10%Q
              (InSession <$> sample_answers) 1 a Hi)
    as (q & Hq & H1 & H2 & H3).
  vm_compute in Hq. injection Hq as <-.
  split; [vm_compute; reflexivity|]. split; [exact H1|].
  split; [exact H2|exact H3].
Defined.

Lemma correct_record_names_correct_answer_witness :
  let e := engine (run (InSession <$> sample_answers) sample_world) in
  exists a,
    user_answers e !! 2 = Some a
    /\ Answer.is_correct a = true
    /\ Answer.user_answer a = "Shakespeare".
Proof.
  set (a := {| Answer.question := "Who wrote Hamlet?";
               Answer.user_answer := "Shakespeare";
               Answer.correct_answer := "Shakespeare";
               Answer.is_correct := true;
               Answer.time_taken := 5 # 2 |}).
  assert (Hi : user_answers
                 (engine (run (InSession <$> sample_answers)
                              (snd (load_questions sample_questions 10%Q
                                                   fresh_world)))) !! 2
               = Some a) by (vm_compute; reflexivity).
  exists a. split; [exact Hi|]. split; [reflexivity|].
  apply (correct_record_names_correct_answer fresh_world sample_questions
           10%Q (InSession <$> sample_answers) a); [|reflexivity].
  apply list_elem_of_lookup. exists 2. exact Hi.
Defined.

Local Close Scope string_scope.

(** ** Grading by index and grading by text *)

Lemma count_occ_1_lookup_inj (l : list string) x i j :
  count_occ String.eq_dec l x = 1 ->
  l !! i = Some x -> l !! j = Some x -> i = j.
Proof.
  revert i j. induction l as [|y l IH]; intros i j Hc Hi Hj; [done|].
  simpl in Hc. destruct (String.eq_dec y x) as [->|Hne].
  - assert (Hnot : x ∉ l).
    { rewrite list_elem_of_In.
      apply (count_occ_not_In String.eq_dec). lia. }
    destruct i as [|i], j as [|j]; simpl in *; try done.
    + exfalso. apply Hnot. by eapply list_elem_of_lookup_2.
    + exfalso. apply Hnot. by eapply list_elem_of_lookup_2.
    + exfalso. apply Hnot. by eapply list_elem_of_lookup_2.
  - destruct i as [|i], j as [|j]; simpl in *; try congruence.
    f_equal. by apply IH.
Qed.

Lemma shuffled_count_correct (sh : list string) q :
  sh ≡ₚ all_answers q ->
  Question.correct_answer q ∉ Question.incorrect_answers q ->
  count_occ String.eq_dec sh (Question.correct_answer q) = 1.
Proof.
  intros Hperm Hnot.
  rewrite (proj1 (Permutation_count_occ String.eq_dec _ _) Hperm).
  unfold all_answers. rewrite count_occ_app. simpl.
  destruct (String.eq_dec _ _) as [_|Hne]; [|done].
  rewrite (proj1 (count_occ_not_In String.eq_dec _ _)); [done|].
  by rewrite <- list_elem_of_In.
Qed.

(** X4. When the correct answer of the current question is not also one of
    its incorrect answers, [submit_answer] with an index inside the
    shuffled answers returns [True] exactly when the shuffled answer at that
    index is the correct answer: comparing indices grades as comparing the
    texts would. *)
Theorem grading_by_index_agrees_with_text w answer_index time_taken p w1 :
  get_current_question w = (Ret (Some p), w1) ->
  Question.correct_answer (Presented.base p)
    ∉ Question.incorrect_answers (Presented.base p) ->
  (0 <= answer_index < Z.of_nat (length (Presented.shuffled_answers p)))%Z ->
  exists b w2,
    submit_answer answer_index time_taken w = (Ret b, w2)
    /\ (b = true
        <-> Presented.shuffled_answers p !! Z.to_nat answer_index
            = Some (Question.correct_answer (Presented.base p))).
Proof.
  intros E Hnot Hidx.
  destruct (le_lt_dec (length (questions (engine w)))
                      (current_question (engine w))) as [Hdone|Hact].
  { rewrite get_current_question_done in E by done. discriminate. }
  destruct (lookup_lt_is_Some_2 _ _ Hact) as [q Hq].
  destruct (submit_answer_active w answer_index time_taken q Hq)
    as (p' & w1' & E' & _ & Hbase & Hperm & Hci & Es).
  rewrite E in E'. injection E' as <- <-. subst q.
  destruct (py_getitem_nonneg (Presented.shuffled_answers p) answer_index
              Hidx) as (ua & Hua & Eg).
  rewrite Eg in Es. eexists _, _. split; [exact Es|].
  rewrite Z.eqb_eq. split.
  - intros ->. by rewrite Nat2Z.id.
  - intros Hc.
    pose proof (shuffled_count_correct _ _ Hperm Hnot) as Hcount.
    pose proof (count_occ_1_lookup_inj _ _ _ _ Hcount Hc Hci). lia.
Qed.

Lemma grading_by_index_agrees_with_text_witness :
  exists p w1 b w2,
    get_current_question sample_world = (Ret (Some p), w1)
    /\ submit_answer 1 (3 # 2) sample_world = (Ret b, w2)
    /\ Presented.shuffled_answers p !! 1 = Some "Rome"%string
    /\ b = false.
Proof.
  destruct (grading_by_index_agrees_with_text sample_world 1 (3 # 2)
              _ _ eq_refl) as (b & w2 & Es & Hiff).
  - simpl. intros H.
    repeat (apply elem_of_cons in H as [H|H]; [discriminate|]).
    by apply not_elem_of_nil in H.
  - simpl. lia.
  - eexists _, _, b, w2. split; [reflexivity|]. split; [exact Es|].
    split; [reflexivity|].
    destruct b; [|reflexivity]. by apply proj1 in Hiff; specialize (Hiff eq_refl).
Defined.

(** ** The sentinel index *)

(** X5. [submit_answer(-1, t)] returns [False] in every state of the engine
    and never raises: when a question is open its shuffled answers are
    never empty, so the index -1 always selects one; the score is left as
    it was. *)
Theorem sentinel_is_always_graded_incorrect w time_taken :
  fst (submit_answer (-1) time_taken w) = Ret false
  /\ score (engine (snd (submit_answer (-1) time_taken w)))
     = score (engine w).
Proof.
  destruct (le_lt_dec (length (questions (engine w)))
                      (current_question (engine w))) as [Hdone|Hact].
  { by rewrite submit_answer_done. }
  destruct (lookup_lt_is_Some_2 _ _ Hact) as [q Hq].
  destruct (submit_answer_active w (-1) time_taken q Hq)
    as (p & w1 & _ & _ & _ & Hperm & _ & Es).
  apply Permutation_length in Hperm. unfold all_answers in Hperm.
  rewrite length_app in Hperm. simpl in Hperm.
  destruct (py_getitem_negative (Presented.shuffled_answers p) (-1))
    as (ua & _ & Eg); [lia|].
  rewrite Es, Eg.
  destruct (Z.eqb_spec (-1) (Z.of_nat (Presented.correct_index p)));
    [lia|]. done.
Qed.

Lemma exec_timeout w t :
  current_question (engine w) < length (questions (engine w)) ->
  exists a,
    Answer.is_correct a = false
    /\ Answer.time_taken a = t
    /\ engine (exec_session (SubmitAnswer (-1) t) w) = graded (engine w) a.
Proof.
  intros Hact. destruct (lookup_lt_is_Some_2 _ _ Hact) as [q Hq].
  destruct (submit_answer_active w (-1) t q Hq)
    as (p & w1 & _ & _ & _ & Hperm & _ & Es).
  apply Permutation_length in Hperm. unfold all_answers in Hperm.
  rewrite length_app in Hperm. simpl in Hperm.
  destruct (py_getitem_negative (Presented.shuffled_answers p) (-1))
    as (ua & _ & Eg); [lia|].
  simpl. rewrite Es, Eg.
  destruct (Z.eqb_spec (-1) (Z.of_nat (Presented.correct_index p)));
    [lia|].
  exists (answer_record p ua false t). by repeat split.
Qed.

Lemma run_timeouts ts w :
  current_question (engine w) <= length (questions (engine w)) ->
  questions (engine (run_session (timeouts ts) w)) = questions (engine w)
  /\ score (engine (run_session (timeouts ts) w)) = score (engine w)
  /\ current_question (engine (run_session (timeouts ts) w))
     = Nat.min (current_question (engine w) + length ts)
               (length (questions (engine w)))
  /\ question_times (engine (run_session (timeouts ts) w))
     = question_times (engine w)
       ++ take (length (questions (engine w)) - current_question (engine w))
               ts.
Proof.
  revert w. induction ts as [|t ts IH]; intros w Hle.
  { simpl. rewrite take_nil, app_nil_r. repeat split. lia. }
  change (run_session (timeouts (t :: ts)) w)
    with (run_session (timeouts ts) (exec_session (SubmitAnswer (-1) t) w)).
  set (w' := exec_session (SubmitAnswer (-1) t) w).
  destruct (decide (current_question (engine w)
                    = length (questions (engine w)))) as [Heq|Hne].
  - assert (Hstep : w' = w).
    { unfold w'. simpl. by rewrite submit_answer_done by lia. }
    rewrite Hstep. destruct (IH w Hle) as (H1 & H2 & H3 & H4).
    rewrite H1, H2, H3, H4, Heq, Nat.sub_diag. simpl.
    repeat split. lia.
  - destruct (exec_timeout w t) as (a & Hfalse & Htime & Ea); [lia|].
    fold w' in Ea.
    assert (Hq : questions (engine w') = questions (engine w))
      by (by rewrite Ea).
    assert (Hs : score (engine w') = score (engine w))
      by (rewrite Ea; simpl; by rewrite Hfalse).
    assert (Hp : current_question (engine w')
                 = current_question (engine w) + 1) by (by rewrite Ea).
    assert (Ht : question_times (engine w') = question_times (engine w) ++ [t])
      by (rewrite Ea; simpl; by rewrite Htime).
    destruct (IH w') as (H1 & H2 & H3 & H4); [rewrite Hq, Hp; lia|].
    rewrite H1, H2, H3, H4, Hq, Hs, Hp, Ht.
    split; [done|]. split; [done|]. split; [simpl; lia|].
    rewrite <- app_assoc. f_equal.
    replace (length (questions (engine w)) - current_question (engine w))
      with (S (length (questions (engine w))
               - (current_question (engine w) + 1))) by lia.
    done.
Qed.

(** X6. A session in which every question times out: after
    [load_questions(qs)] and one [submit_answer(-1, t)] for each time in
    [ts], the position is [min(len(ts), len(qs))], the score is 0 and the
    timing log holds the first [len(qs)] of the times; submissions after
    the last question are ignored. *)
Theorem session_of_timeouts_scores_nothing w0 qs now ts :
  let e := engine (run_session (timeouts ts)
                               (snd (load_questions qs now w0))) in
  current_question e = Nat.min (length ts) (length qs)
  /\ score e = 0
  /\ question_times e = take (length qs) ts.
Proof.
  intros e.
  destruct (run_timeouts ts (snd (load_questions qs now w0)))
    as (_ & Hs & Hp & Ht); [simpl; lia|].
  fold e in Hs, Hp, Ht. simpl in Hs, Hp, Ht.
  rewrite Nat.sub_0_r in Ht. done.
Qed.

(** ** Score, position and the results *)

(** X7. In every state reached after a [load_questions] the score is at
    most the number of questions answered so far, which is at most the
    number of questions. *)
Theorem score_at_most_position w0 qs now (cs : list call) :
  let e := engine (run cs (snd (load_questions qs now w0))) in
  score e <= current_question e
  /\ current_question e <= length (questions e).
Proof.
  intros e.
  assert (Hc : consistent e) by apply consistent_run, consistent_load.
  destruct Hc as (Hs & Hu & _ & Hp). split; [|done].
  rewrite Hs, <- Hu. apply List.filter_length_le.
Qed.

(** X8. In every state reached after a [load_questions],
    [get_final_results] returns a percentage between 0 and 100. *)
Theorem percentage_between_0_and_100 w0 qs t0 (cs : list call) now :
  let w := run cs (snd (load_questions qs t0 w0)) in
  exists r,
    get_final_results now w = (Ret r, w)
    /\ (0 <= Results.percentage r <= 100)%Q.
Proof.
  intros w.
  assert (Hc : consistent (engine w)) by apply consistent_run, consistent_load.
  pose proof (consistent_score_le _ Hc) as Hle.
  destruct (get_final_results_Ret now w Hle)
    as (r & E & _ & _ & _ & _ & Hp & _).
  exists r. split; [done|]. rewrite Hp.
  destruct (questions (engine w)) as [|q l] eqn:Eq; [done|].
  apply float_mul_100_bounds, round64_unit_interval, ratio_bounds;
    simpl in *; lia.
Qed.




(** X10. Asking twice for the current question, with no submission in
    between, gives the same question in another order: the second call
    returns the same stored question, and its shuffled answers are a
    permutation of those of the first call. *)
Theorem asking_again_reshuffles_the_same_question w p1 w1 :
  get_current_question w = (Ret (Some p1), w1) ->
  exists p2 w2,
    get_current_question w1 = (Ret (Some p2), w2)
    /\ Presented.base p2 = Presented.base p1
    /\ Presented.shuffled_answers p2 ≡ₚ Presented.shuffled_answers p1
    /\ engine w2 = engine w.
Proof.
  intros E.
  destruct (le_lt_dec (length (questions (engine w)))
                      (current_question (engine w))) as [Hdone|Hact].
  { rewrite get_current_question_done in E by done. discriminate. }
  destruct (lookup_lt_is_Some_2 _ _ Hact) as [q Hq].
  destruct (get_current_question_active w q Hq)
    as (sh & g' & ci & _ & Hperm & _ & _ & E1).
  rewrite E1 in E. injection E as <- <-.
  destruct (get_current_question_active
              {| engine := engine w; rng := g' |} q Hq)
    as (sh2 & g2 & ci2 & _ & Hperm2 & _ & _ & E2).
  eexists _, _. split; [exact E2|]. simpl.
  split; [done|]. split; [by rewrite Hperm, Hperm2|done].
Qed.

Lemma asking_again_reshuffles_the_same_question_witness :
  let p1 := {| Presented.base := q_capital;
               Presented.shuffled_answers :=
                 ["Paris"; "Rome"; "Madrid"; "Berlin"];
               Presented.correct_index := 0 |}%string in
  let w1 := snd (get_current_question sample_world) in
  get_current_question sample_world = (Ret (Some p1), w1)
  /\ exists p2 w2,
       get_current_question w1 = (Ret (Some p2), w2)
       /\ Presented.shuffled_answers p2
          = ["Rome"; "Berlin"; "Paris"; "Madrid"]%string
       /\ Presented.base p2 = q_capital
       /\ Presented.shuffled_answers p2 ≡ₚ Presented.shuffled_answers p1.
Proof.
  intros p1 w1.
  assert (E1 : get_current_question sample_world = (Ret (Some p1), w1))
    by reflexivity.
  split; [exact E1|].
  destruct (asking_again_reshuffles_the_same_question sample_world p1 w1 E1)
    as (p2 & w2 & E2 & Hbase & Hperm & _).
  exists p2, w2. split; [exact E2|].
  split; [|split; [exact Hbase|exact Hperm]].
  vm_compute in E2. by injection E2 as <- _.
Defined.

(** * The command-line caller *)

Lemma submit_sentinel w time_taken :
  exists w',
    submit_answer (-1) time_taken w = (Ret false, w')
    /\ score (engine w') = score (engine w).
Proof.
  destruct (le_lt_dec (length (questions (engine w)))
                      (current_question (engine w))) as [Hdone|Hact].
  { exists w. by rewrite submit_answer_done. }
  destruct (lookup_lt_is_Some_2 _ _ Hact) as [q Hq].
  destruct (submit_answer_active w (-1) time_taken q Hq)
    as (p & w1 & _ & _ & _ & Hperm & _ & Es).
  apply Permutation_length in Hperm. unfold all_answers in Hperm.
  rewrite length_app in Hperm. simpl in Hperm.
  destruct (py_getitem_negative (Presented.shuffled_answers p) (-1))
    as (ua & _ & Eg); [lia|].
  rewrite Es, Eg.
  destruct (Z.eqb_spec (-1) (Z.of_nat (Presented.correct_index p)));
    [lia|].
  eexists. split; [reflexivity|]. done.
Qed.

Lemma grade_on_four_answers
    w q question_data answer_index elapsed :
  questions (engine w) !! current_question (engine w) = Some q ->
  length (Question.incorrect_answers q) = 3 ->
  exists msg w',
    CLI.grade question_data answer_index elapsed w = (Ret msg, w')
    /\ current_question (engine w') = current_question (engine w) + 1
    /\ length (user_answers (engine w'))
       = length (user_answers (engine w)) + 1
    /\ (msg = CLI.SaidInvalid <-> ~ (0 <= answer_index < 4)%Z)
    /\ (msg = CLI.SaidInvalid -> score (engine w') = score (engine w)).
Proof.
  intros Hq Hlen. unfold CLI.grade.
  destruct (submit_answer_active w answer_index elapsed q Hq)
    as (p & w1 & _ & _ & _ & Hperm & _ & Es).
  destruct (submit_answer_active w (-1) elapsed q Hq)
    as (p' & w1' & _ & _ & _ & Hperm' & _ & Es').
  apply Permutation_length in Hperm, Hperm'. unfold all_answers in *.
  rewrite length_app, Hlen in Hperm, Hperm'. simpl in Hperm, Hperm'.
  destruct (Z.leb_spec 0 answer_index) as [H0|H0];
    [destruct (Z.ltb_spec answer_index 4) as [H4|H4]|]; simpl.
  - destruct (py_getitem_nonneg (Presented.shuffled_answers p) answer_index)
      as (ua & _ & Eg); [lia|].
    rewrite Eg in Es. unfold mbind, M_bind, bind. rewrite Es.
    destruct (answer_index =? Z.of_nat (Presented.correct_index p))%Z;
      (eexists _, _; split; [reflexivity|]; simpl;
       rewrite length_app; simpl; repeat split; try done; lia).
  - destruct (py_getitem_negative (Presented.shuffled_answers p') (-1))
      as (ua & _ & Eg); [lia|].
    rewrite Eg in Es'. unfold mbind, M_bind, bind. rewrite Es'.
    destruct (Z.eqb_spec (-1) (Z.of_nat (Presented.correct_index p')));
      [lia|].
    eexists _, _. split; [reflexivity|]. simpl.
    rewrite length_app. simpl. repeat split; try done; lia.
  - destruct (py_getitem_negative (Presented.shuffled_answers p') (-1))
      as (ua & _ & Eg); [lia|].
    rewrite Eg in Es'. unfold mbind, M_bind, bind. rewrite Es'.
    destruct (Z.eqb_spec (-1) (Z.of_nat (Presented.correct_index p')));
      [lia|].
    eexists _, _. split; [reflexivity|]. simpl.
    rewrite length_app. simpl. repeat split; try done; lia.
Qed.


(** X11. With a current question of four answers (three incorrect ones),
    the hand-over of lines 350-358 never raises, whatever index it is
    given: it records one answer and moves the position by one, and it
    prints "Invalid choice or timeout" exactly when the index is outside
    0..3, in which case the score is unchanged. *)
Theorem cli_grade_never_raises_on_four_answers
    w q question_data answer_index elapsed :
  questions (engine w) !! current_question (engine w) = Some q ->
  length (Question.incorrect_answers q) = 3 ->
  exists msg w',
    CLI.grade question_data answer_index elapsed w = (Ret msg, w')
    /\ current_question (engine w') = current_question (engine w) + 1
    /\ length (user_answers (engine w'))
       = length (user_answers (engine w)) + 1
    /\ (msg = CLI.SaidInvalid <-> ~ (0 <= answer_index < 4)%Z)
    /\ (msg = CLI.SaidInvalid -> score (engine w') = score (engine w)).
Proof. apply grade_on_four_answers. Qed.

Lemma cli_grade_never_raises_on_four_answers_witness :
  let displayed :=
    {| Presented.base := q_capital;
       Presented.shuffled_answers := ["Paris"; "Rome"; "Madrid"; "Berlin"];
       Presented.correct_index := 0 |}%string in
  let w1 := snd (get_current_question sample_world) in
  fst (get_current_question sample_world) = Ret (Some displayed)
  /\ exists msg w',
       CLI.grade displayed 7 (3 # 2) w1 = (Ret msg, w')
       /\ msg = CLI.SaidInvalid
       /\ current_question (engine w') = 1
       /\ score (engine w') = 0.
Proof.
  intros displayed w1. split; [reflexivity|].
  destruct (cli_grade_never_raises_on_four_answers
              w1 q_capital displayed 7 (3 # 2))
    as (msg & w' & E & Hpos & _ & Hinv & Hscore); [reflexivity..|].
  assert (Hmsg : msg = CLI.SaidInvalid) by (apply Hinv; lia).
  exists msg, w'. split; [exact E|].
  split; [exact Hmsg|]. split; [exact Hpos|]. exact (Hscore Hmsg).
Defined.

(** X12. In the timed branch an answer that arrives after the limit, or
    that [int()] refuses, is turned into the index -1, and the hand-over
    then prints "Invalid choice or timeout", returns without raising and
    leaves the score as it was: a late answer never scores, whatever was
    typed. *)
Theorem late_or_unreadable_answer_never_scores
    (int : string -> option Z) time_limit user_input elapsed
    question_data w :
  (inject_Z time_limit < elapsed)%Q \/ int user_input = None ->
  snd (CLI.timed_answer_index int time_limit user_input elapsed) = (-1)%Z
  /\ exists w',
       CLI.grade question_data
         (snd (CLI.timed_answer_index int time_limit user_input elapsed))
         elapsed w
       = (Ret CLI.SaidInvalid, w')
       /\ score (engine w') = score (engine w).
Proof.
  intros H.
  assert (Hidx : snd (CLI.timed_answer_index int time_limit user_input
                                              elapsed) = (-1)%Z).
  { unfold CLI.timed_answer_index.
    destruct (Qle_bool elapsed (inject_Z time_limit)) eqn:Hle; [|done].
    destruct H as [Hlate| ->]; [|done].
    apply Qle_bool_iff in Hle. by apply Qlt_not_le in Hlate. }
  split; [done|]. rewrite Hidx. unfold CLI.grade. simpl.
  destruct (submit_sentinel w elapsed) as (w' & E & Hs).
  exists w'. unfold mbind, M_bind, bind. by rewrite E.
Qed.

Lemma late_or_unreadable_answer_never_scores_witness :
  (exists w',
     CLI.timed_answer_index CLI.int_digit 30 "1" (61 # 2)
     = ([CLI.TimesUp], (-1)%Z)
     /\ CLI.grade (Presented.mk q_capital [] 0)
          (snd (CLI.timed_answer_index CLI.int_digit 30 "1" (61 # 2)))
          (61 # 2) sample_world
        = (Ret CLI.SaidInvalid, w')
     /\ score (engine w') = 0)
  /\ (exists w',
        CLI.timed_answer_index CLI.int_digit 30 "x" 5 = ([], (-1)%Z)
        /\ CLI.grade (Presented.mk q_capital [] 0)
             (snd (CLI.timed_answer_index CLI.int_digit 30 "x" 5))
             5 sample_world
           = (Ret CLI.SaidInvalid, w')
        /\ score (engine w') = 0).
Proof.
  split.
  - destruct (late_or_unreadable_answer_never_scores CLI.int_digit 30 "1"
                (61 # 2) (Presented.mk q_capital [] 0) sample_world)
      as (_ & w' & E & Hs); [left; reflexivity|].
    exists w'. split; [reflexivity|]. split; [exact E|exact Hs].
  - destruct (late_or_unreadable_answer_never_scores CLI.int_digit 30 "x"
                5 (Presented.mk q_capital [] 0) sample_world)
      as (_ & w' & E & Hs); [right; reflexivity|].
    exists w'. split; [reflexivity|]. split; [exact E|exact Hs].
Defined.

(** * The input loops of [Utilities] *)

Section Loops.
Context (int : string -> option Z) (strip lower : string -> string).

Lemma validate_number_input_refused prompt min_val max_val line stdin :
  Console.in_range int min_val max_val line = false ->
  exists hint,
    Console.validate_number_input int prompt min_val max_val (line :: stdin)
    = Console.after [Console.Prompt prompt; hint]
        (Console.validate_number_input int prompt min_val max_val stdin).
Proof.
  unfold Console.in_range. simpl. intros H.
  destruct (int line) as [value|]; [|by eexists].
  rewrite H. by eexists.
Qed.

Lemma validate_number_input_accepted prompt min_val max_val line stdin :
  Console.in_range int min_val max_val line = true ->
  exists value,
    int line = Some value
    /\ (min_val <= value <= max_val)%Z
    /\ Console.validate_number_input int prompt min_val max_val
         (line :: stdin)
       = {| Console.ended := Console.Returned value;
            Console.unread := stdin;
            Console.output := [Console.Prompt prompt] |}.
Proof.
  unfold Console.in_range. simpl. intros H.
  destruct (int line) as [value|]; [|done]. rewrite H.
  exists value. split; [done|]. split; [lia|done].
Qed.

Lemma validate_number_input_spec prompt min_val max_val stdin :
  let r := Console.validate_number_input int prompt min_val max_val stdin in
  match Console.ended r with
  | Console.Returned value =>
      (min_val <= value <= max_val)%Z
      /\ exists refused line,
           stdin = refused ++ line :: Console.unread r
           /\ Forall (fun l => Console.in_range int min_val max_val l = false)
                     refused
           /\ Console.in_range int min_val max_val line = true
           /\ int line = Some value
           /\ length (Console.output r) = 2 * length refused + 1
  | Console.EOFError =>
      Forall (fun l => Console.in_range int min_val max_val l = false) stdin
      /\ Console.unread r = []
      /\ length (Console.output r) = 2 * length stdin + 1
  end.
Proof.
  induction stdin as [|line stdin IH]; [by repeat split|].
  destruct (Console.in_range int min_val max_val line) eqn:Hline.
  - destruct (validate_number_input_accepted prompt min_val max_val line
                stdin Hline) as (value & Hint & Hrange & ->).
    cbn zeta. simpl. split; [done|]. exists [], line. by repeat split.
  - destruct (validate_number_input_refused prompt min_val max_val line
                stdin Hline) as (hint & ->).
    cbn zeta in *.
    destruct (Console.validate_number_input int prompt min_val max_val stdin)
      as [[value|] rest out]; simpl in *.
    + destruct IH as (Hrange & refused & l & Hst & Hall & Hl & Hint & Hout).
      split; [done|]. exists (line :: refused), l.
      split; [by rewrite Hst|]. split; [by constructor|]. split; [done|].
      split; [done|]. simpl. lia.
    + destruct IH as (Hall & Hun & Hout).
      split; [by constructor|]. split; [done|]. lia.
Qed.

(** What a run that ends in [EOFError] has printed: for every line the
    prompt and the hint of that line, then the prompt on which [input]
    raised. *)
Lemma validate_number_input_eof_output prompt min_val max_val stdin :
  let r := Console.validate_number_input int prompt min_val max_val stdin in
  Console.ended r = Console.EOFError ->
  Console.output r
  = flat_map (fun line =>
                [Console.Prompt prompt;
                 match int line with
                 | Some _ => Console.RangeHint min_val max_val
                 | None => Console.NumberHint
                 end]) stdin
    ++ [Console.Prompt prompt].
Proof.
  induction stdin as [|line stdin IH]; [done|].
  cbn zeta in *. simpl.
  destruct (int line) as [value|];
    [destruct ((min_val <=? value)%Z && (value <=? max_val)%Z);
       [discriminate|]|];
    simpl; intros H; by rewrite (IH H).
Qed.
End Loops.

(** X13. When [validate_number_input] returns, the value is within
    [min_val..max_val] and is [int()] of the first line of the input that
    gives such a value; the lines before it were all refused and the lines
    after it are left unread. *)
Theorem validate_number_input_returns_first_value_in_range
    (int : string -> option Z) prompt min_val max_val stdin value :
  let r := Console.validate_number_input int prompt min_val max_val stdin in
  Console.ended r = Console.Returned value ->
  (min_val <= value <= max_val)%Z
  /\ exists refused line,
       stdin = refused ++ line :: Console.unread r
       /\ int line = Some value
       /\ Forall (fun l => Console.in_range int min_val max_val l = false)
                 refused.
Proof.
  intros r Hr.
  pose proof (validate_number_input_spec int prompt min_val max_val stdin)
    as H. cbn zeta in H. fold r in H. rewrite Hr in H.
  destruct H as (Hrange & refused & line & Hst & Hall & _ & Hint & _).
  split; [done|]. by exists refused, line.
Qed.

Lemma validate_number_input_returns_first_value_in_range_witness :
  let r := Console.validate_number_input CLI.int_digit
             "Enter your choice (1-4): " 1 4 ["x"; "7"; "3"; "2"]%string in
  Console.ended r = Console.Returned 3%Z
  /\ (1 <= 3 <= 4)%Z
  /\ Console.unread r = ["2"%string]
  /\ exists refused line,
       ["x"; "7"; "3"; "2"]%string = refused ++ line :: Console.unread r
       /\ CLI.int_digit line = Some 3%Z
       /\ Forall (fun l => Console.in_range CLI.int_digit 1 4 l = false)
                 refused.
Proof.
  intros r.
  assert (Hr : Console.ended r = Console.Returned 3%Z) by reflexivity.
  destruct (validate_number_input_returns_first_value_in_range
              CLI.int_digit "Enter your choice (1-4): " 1 4
              ["x"; "7"; "3"; "2"]%string 3%Z Hr) as [Hrange Hsplit].
  split; [exact Hr|]. split; [exact Hrange|]. split; [reflexivity|].
  exact Hsplit.
Defined.

(** X14. [validate_number_input] ends in [EOFError] exactly when no line of
    the input gives a value within [min_val..max_val] (in particular for
    every input when [min_val > max_val]). It has then read every line, and
    it has printed, line by line, the prompt followed by the hint that the
    line earned (the range for a number outside the range, "a valid number"
    for a line that [int()] refuses), and last the prompt once more. *)
Theorem validate_number_input_eof_iff_no_value_in_range
    (int : string -> option Z) prompt min_val max_val stdin :
  let r := Console.validate_number_input int prompt min_val max_val stdin in
  (Console.ended r = Console.EOFError
   <-> Forall (fun l => Console.in_range int min_val max_val l = false) stdin)
  /\ (Console.ended r = Console.EOFError ->
      Console.unread r = []
      /\ Console.output r
         = flat_map (fun line =>
                       [Console.Prompt prompt;
                        match int line with
                        | Some _ => Console.RangeHint min_val max_val
                        | None => Console.NumberHint
                        end]) stdin
           ++ [Console.Prompt prompt]).
Proof.
  intros r.
  pose proof (validate_number_input_spec int prompt min_val max_val stdin)
    as H. cbn zeta in H. fold r in H.
  pose proof (validate_number_input_eof_output int prompt min_val max_val
                stdin) as Hout. cbn zeta in Hout. fold r in Hout.
  destruct (Console.ended r) as [value|] eqn:Hr.
  - split; [|done]. split; [done|]. intros Hall. exfalso.
    destruct H as (_ & refused & line & Hst & _ & Hline & _).
    rewrite Hst in Hall. apply Forall_app in Hall as [_ Hall].
    apply Forall_cons_1 in Hall as [Hl _]. congruence.
  - destruct H as (Hall & Hun & _). split; [done|].
    intros _. split; [done|]. by apply Hout.
Qed.

Lemma validate_number_input_eof_iff_no_value_in_range_witness :
  let r := Console.validate_number_input CLI.int_digit
             "Enter your choice (1-4): " 1 4 ["x"; "7"; "0"]%string in
  Console.ended r = Console.EOFError
  /\ Console.unread r = []
  /\ Console.output r
     = [Console.Prompt "Enter your choice (1-4): "; Console.NumberHint;
        Console.Prompt "Enter your choice (1-4): "; Console.RangeHint 1 4;
        Console.Prompt "Enter your choice (1-4): "; Console.RangeHint 1 4;
        Console.Prompt "Enter your choice (1-4): "].
Proof.
  intros r.
  destruct (validate_number_input_eof_iff_no_value_in_range
              CLI.int_digit "Enter your choice (1-4): " 1 4
              ["x"; "7"; "0"]%string) as [_ H].
  assert (Hr : Console.ended r = Console.EOFError) by reflexivity.
  split; [exact Hr|]. exact (H Hr).
Defined.

Section Choices.
Context (strip lower : string -> string).

Lemma validate_choice_input_spec prompt valid_choices stdin :
  let r := Console.validate_choice_input strip lower prompt valid_choices
             stdin in
  match Console.ended r with
  | Console.Returned choice =>
      choice ∈ valid_choices
      /\ exists refused line,
           stdin = refused ++ line :: Console.unread r
           /\ choice = lower (strip line)
           /\ Forall (fun l => lower (strip l) ∉ valid_choices) refused
           /\ length (Console.output r) = 2 * length refused + 1
  | Console.EOFError =>
      Forall (fun l => lower (strip l) ∉ valid_choices) stdin
      /\ Console.unread r = []
      /\ length (Console.output r) = 2 * length stdin + 1
  end.
Proof.
  induction stdin as [|line stdin IH]; [by repeat split|].
  cbn zeta in *. simpl.
  destruct (bool_decide_reflect (lower (strip line) ∈ valid_choices))
    as [Hin|Hnot]; simpl.
  - split; [done|]. exists [], line. by repeat split.
  - destruct (Console.validate_choice_input strip lower prompt valid_choices
                stdin) as [[choice|] rest out]; simpl in *.
    + destruct IH as (Hin & refused & l & Hst & Hc & Hall & Hout).
      split; [done|]. exists (line :: refused), l.
      split; [by rewrite Hst|]. split; [done|]. split; [by constructor|].
      simpl. lia.
    + destruct IH as (Hall & Hun & Hout).
      split; [by constructor|]. split; [done|]. lia.
Qed.
End Choices.

(** X15. When [validate_choice_input] returns, the result is one of
    [valid_choices], and it is the stripped, lower-cased form of the first
    input line whose stripped, lower-cased form is a valid choice; the
    lines after it are left unread. *)
Theorem validate_choice_input_returns_first_valid_choice
    (strip lower : string -> string) prompt valid_choices stdin choice :
  let r := Console.validate_choice_input strip lower prompt valid_choices
             stdin in
  Console.ended r = Console.Returned choice ->
  choice ∈ valid_choices
  /\ exists refused line,
       stdin = refused ++ line :: Console.unread r
       /\ choice = lower (strip line)
       /\ Forall (fun l => lower (strip l) ∉ valid_choices) refused.
Proof.
  intros r Hr.
  pose proof (validate_choice_input_spec strip lower prompt valid_choices
                stdin) as H. cbn zeta in H. fold r in H. rewrite Hr in H.
  destruct H as (Hin & refused & line & Hst & Hc & Hall & _).
  split; [done|]. by exists refused, line.
Qed.

Lemma validate_choice_input_returns_first_valid_choice_witness :
  let r := Console.validate_choice_input (fun s => s) (fun s => s)
             "Save your score? (y/n): " ["y"; "n"]
             ["maybe"; "n"; "y"]%string in
  Console.ended r = Console.Returned "n"%string
  /\ "n"%string ∈ ["y"; "n"]%string
  /\ Console.unread r = ["y"%string].
Proof.
  intros r.
  assert (Hr : Console.ended r = Console.Returned "n"%string) by reflexivity.
  destruct (validate_choice_input_returns_first_valid_choice
              (fun s => s) (fun s => s) "Save your score? (y/n): "
              ["y"; "n"]%string ["maybe"; "n"; "y"]%string "n"%string Hr)
    as [Hin _].
  split; [exact Hr|]. split; [exact Hin|]. reflexivity.
Defined.

(** X16. With an empty list of valid choices [validate_choice_input] never
    returns: on every input it refuses every line and ends in [EOFError]
    with nothing left unread. *)
Theorem validate_choice_input_without_choices_never_returns
    (strip lower : string -> string) prompt stdin :
  let r := Console.validate_choice_input strip lower prompt [] stdin in
  Console.ended r = Console.EOFError
  /\ Console.unread r = []
  /\ length (Console.output r) = 2 * length stdin + 1.
Proof.
  intros r.
  pose proof (validate_choice_input_spec strip lower prompt [] stdin) as H.
  cbn zeta in H. fold r in H.
  destruct (Console.ended r) as [choice|].
  - destruct H as [Hin _]. by apply not_elem_of_nil in Hin.
  - destruct H as (_ & Hun & Hout). by repeat split.
Qed.

(** X17. The untimed branch of [_play_quiz] (lines 345-347 and 350-358):
    the number that [validate_number_input(prompt, 1, 4)] returns, less
    one, is always an index the hand-over accepts; with a current question
    of four answers it is graded without raising and "Invalid choice or
    timeout" is never printed. *)
Theorem untimed_choice_is_always_graded
    (int : string -> option Z) prompt stdin value
    w q question_data elapsed :
  Console.ended (Console.validate_number_input int prompt 1 4 stdin)
  = Console.Returned value ->
  questions (engine w) !! current_question (engine w) = Some q ->
  length (Question.incorrect_answers q) = 3 ->
  exists msg w',
    CLI.grade question_data (value - 1) elapsed w = (Ret msg, w')
    /\ msg <> CLI.SaidInvalid
    /\ current_question (engine w') = current_question (engine w) + 1.
Proof.
  intros Hr Hq Hlen.
  pose proof (validate_number_input_spec int prompt 1 4 stdin) as H.
  cbn zeta in H. rewrite Hr in H. destruct H as [Hrange _].
  destruct (grade_on_four_answers w q question_data (value - 1) elapsed
              Hq Hlen) as (msg & w' & E & Hpos & _ & Hinv & _).
  exists msg, w'. split; [done|]. split; [|done].
  intros Hmsg. apply Hinv in Hmsg. lia.
Qed.

Lemma untimed_choice_is_always_graded_witness :
  let displayed :=
    {| Presented.base := q_capital;
       Presented.shuffled_answers := ["Paris"; "Rome"; "Madrid"; "Berlin"];
       Presented.correct_index := 0 |}%string in
  let w1 := snd (get_current_question sample_world) in
  Console.ended (Console.validate_number_input CLI.int_digit
                   "Enter your choice (1-4): " 1 4 ["9"; "2"]%string)
  = Console.Returned 2%Z
  /\ exists msg w',
       CLI.grade displayed (2 - 1) (3 # 2) w1 = (Ret msg, w')
       /\ msg <> CLI.SaidInvalid
       /\ current_question (engine w') = 1.
Proof.
  intros displayed w1. split; [reflexivity|].
  destruct (untimed_choice_is_always_graded CLI.int_digit
              "Enter your choice (1-4): " ["9"; "2"]%string 2%Z
              w1 q_capital displayed (3 # 2))
    as (msg & w' & E & Hmsg & Hpos); [reflexivity..|].
  by exists msg, w'.
Defined.

(** * The high scores *)

Section ScoreOrder.
Import Scores.
Implicit Types (a b c : entry) (l : list entry).

Lemma key_lt_true a b :
  key_lt a b = true
  <-> (percentage a < percentage b)%Q
      \/ ((percentage a == percentage b)%Q
          /\ (total_time b < total_time a)%Q).
Proof.
  unfold key_lt.
  destruct (Qeq_bool (percentage a) (percentage b)) eqn:He.
  - apply Qeq_bool_iff in He. rewrite negb_true_iff.
    destruct (Qle_bool (- total_time b) (- total_time a)) eqn:Hl.
    + apply Qle_bool_iff in Hl. split; [done|]. intros [H|[_ H]]; lra.
    + assert (~ (- total_time b <= - total_time a)%Q) as Hn.
      { intros H. apply Qle_bool_iff in H. congruence. }
      split; [|done]. intros _. right. split; [done|]. lra.
  - assert (~ (percentage a == percentage b)%Q) as Hne.
    { intros H. apply Qeq_bool_iff in H. congruence. }
    rewrite negb_true_iff.
    destruct (Qle_bool (percentage b) (percentage a)) eqn:Hl.
    + apply Qle_bool_iff in Hl. split; [done|].
      intros [H|[H _]]; [lra|done].
    + assert (~ (percentage b <= percentage a)%Q) as Hn.
      { intros H. apply Qle_bool_iff in H. congruence. }
      split; [|done]. intros _. left. lra.
Qed.

Lemma key_lt_false a b : key_lt a b = false <-> ranks_before a b.
Proof.
  unfold ranks_before. split.
  - intros H.
    assert (Hn : ~ ((percentage a < percentage b)%Q
                    \/ ((percentage a == percentage b)%Q
                        /\ (total_time b < total_time a)%Q))).
    { rewrite <- key_lt_true. congruence. }
    destruct (Qlt_le_dec (percentage b) (percentage a)) as [?|Hle];
      [by left|]. right.
    destruct (Qlt_le_dec (percentage a) (percentage b)) as [?|Hle'];
      [exfalso; apply Hn; by left|].
    assert (He : (percentage a == percentage b)%Q) by lra.
    split; [done|].
    destruct (Qlt_le_dec (total_time b) (total_time a)) as [?|?]; [|done].
    exfalso. apply Hn. by right.
  - intros H. destruct (key_lt a b) eqn:E; [|done].
    apply key_lt_true in E. destruct H as [?|[? ?]], E as [?|[? ?]]; lra.
Qed.

Lemma ranks_before_trans a b c :
  ranks_before a b -> ranks_before b c -> ranks_before a c.
Proof.
  unfold ranks_before.
  intros [?|[? ?]] [?|[? ?]]; [left; lra|left; lra|left; lra|].
  right. split; lra.
Qed.

Lemma insert_desc_Permutation a l : insert_desc a l ≡ₚ a :: l.
Proof.
  induction l as [|b l IH]; simpl; [done|].
  destruct (key_lt a b); [|done]. rewrite IH. apply Permutation_swap.
Qed.

Lemma sorted_scores_Permutation l : sorted_scores l ≡ₚ l.
Proof.
  induction l as [|a l IH]; simpl; [done|].
  by rewrite insert_desc_Permutation, IH.
Qed.

Lemma insert_desc_sorted a l :
  StronglySorted ranks_before l ->
  StronglySorted ranks_before (insert_desc a l).
Proof.
  induction 1 as [|b l Hs IH Hb]; simpl.
  { repeat constructor. }
  destruct (key_lt a b) eqn:E.
  - constructor; [done|]. rewrite insert_desc_Permutation.
    constructor; [|done].
    apply key_lt_true in E. unfold ranks_before.
    destruct E as [?|[? ?]]; [by left|]. right. split; lra.
  - apply key_lt_false in E. constructor; [by constructor|].
    constructor; [done|].
    eapply Forall_impl; [|exact Hb]. intros c Hc.
    by eapply ranks_before_trans.
Qed.

Lemma sorted_scores_sorted l : StronglySorted ranks_before (sorted_scores l).
Proof.
  induction l as [|a l IH]; simpl; [constructor|].
  by apply insert_desc_sorted.
Qed.

Lemma StronglySorted_lookup l i j a b :
  StronglySorted ranks_before l ->
  i < j -> l !! i = Some a -> l !! j = Some b -> ranks_before a b.
Proof.
  intros Hs. revert i j.
  induction Hs as [|c l Hs IH Hc]; intros i j Hij Hi Hj; [done|].
  destruct i as [|i], j as [|j]; simpl in *; try lia.
  - injection Hi as ->. rewrite Forall_forall in Hc. apply Hc.
    apply list_elem_of_In. by eapply list_elem_of_lookup_2.
  - eapply IH; [|done..]. lia.
Qed.
End ScoreOrder.

(** X18. Sorting the scores loses and invents nothing: the sorted list is
    a permutation of the list in the file. *)
Theorem sorted_scores_is_a_permutation (scores : list Scores.entry) :
  Scores.sorted_scores scores ≡ₚ scores.
Proof. apply sorted_scores_Permutation. Qed.

(** X19. The sorted scores are ranked by percentage, highest first, and
    among equal percentages by total time, shortest first: of two entries
    the one listed earlier has the higher percentage, or the same
    percentage and no more time. *)
Theorem sorted_scores_by_percentage_then_time
    (scores : list Scores.entry) i j a b :
  i < j ->
  Scores.sorted_scores scores !! i = Some a ->
  Scores.sorted_scores scores !! j = Some b ->
  (Scores.percentage b <= Scores.percentage a)%Q
  /\ ((Scores.percentage a == Scores.percentage b)%Q ->
      (Scores.total_time a <= Scores.total_time b)%Q).
Proof.
  intros Hij Hi Hj.
  pose proof (StronglySorted_lookup _ _ _ _ _ (sorted_scores_sorted scores)
                Hij Hi Hj) as [H|[H1 H2]].
  - split; [lra|]. intros He. lra.
  - split; [lra|done].
Qed.

Lemma same_key_not_lt k a b :
  Scores.same_key k a = true -> Scores.same_key k b = true ->
  Scores.key_lt a b = false.
Proof.
  unfold Scores.same_key. rewrite !andb_true_iff, !Qeq_bool_iff.
  intros [Ha Ha'] [Hb Hb']. apply key_lt_false. right. split; lra.
Qed.

Lemma filter_insert_desc k a l :
  List.filter (Scores.same_key k) (Scores.insert_desc a l)
  = List.filter (Scores.same_key k) (a :: l).
Proof.
  induction l as [|b l IH]; [done|].
  cbn [Scores.insert_desc]. destruct (Scores.key_lt a b) eqn:E; [|done].
  cbn [List.filter] in *. rewrite IH.
  destruct (Scores.same_key k a) eqn:Ha, (Scores.same_key k b) eqn:Hb;
    try done.
  pose proof (same_key_not_lt k a b Ha Hb). congruence.
Qed.

(** X20. The sort is stable: entries with the same percentage and the same
    total time come out in the order they have in the file, so of two
    equal scores the one saved first is listed first. *)
Theorem sorted_scores_keeps_order_of_ties (scores : list Scores.entry) k :
  List.filter (Scores.same_key k) (Scores.sorted_scores scores)
  = List.filter (Scores.same_key k) scores.
Proof.
  induction scores as [|a scores IH]; [done|].
  cbn [Scores.sorted_scores]. rewrite filter_insert_desc.
  cbn [List.filter]. by rewrite IH.
Qed.

Lemma slice_to_take {A} (n : Z) (l : list A) :
  exists k,
    Scores.slice_to n l = take k l
    /\ Nat.min k (length l)
       = if (n <? 0)%Z then Z.to_nat (Z.of_nat (length l) + n)
         else Nat.min (Z.to_nat n) (length l).
Proof.
  unfold Scores.slice_to. destruct (Z.ltb_spec n 0).
  - eexists. split; [done|]. lia.
  - by eexists.
Qed.

Lemma lines_all_readable fromisoformat rank l :
  Forall (fun e => is_Some (fromisoformat (Scores.date e))) l ->
  length (Scores.lines fromisoformat rank l) = length l
  /\ forall i e,
       l !! i = Some e ->
       exists when,
         fromisoformat (Scores.date e) = Some when
         /\ Scores.lines fromisoformat rank l !! i
            = Some (Scores.Line (rank + i) e when).
Proof.
  intros Hall. revert rank.
  induction Hall as [|e l [when He] Hall IH]; intros rank; [done|].
  cbn [Scores.lines]. rewrite He. destruct (IH (S rank)) as [Hlen Hline].
  split; [simpl; by rewrite Hlen|].
  intros [|i] e' Hi; simpl in Hi.
  - injection Hi as <-. exists when. by rewrite Nat.add_0_r.
  - destruct (Hline i e' Hi) as (when' & He' & Hl).
    exists when'. split; [done|]. simpl. rewrite Hl. do 2 f_equal. lia.
Qed.

(** X21. For a file of scores whose dates can all be read,
    [display_high_scores] prints the heading and then one line for each of
    the first entries of the sorted scores, with the ranks 1, 2, ...:
    [top_n] entries when there are that many (for a negative [top_n], all
    but the last [-top_n]). Every entry left out ranks no higher than every
    entry listed. *)
Theorem listed_scores_are_the_best
    fromisoformat (scores : list Scores.entry) top_n :
  scores <> [] ->
  Forall (fun e => is_Some (fromisoformat (Scores.date e))) scores ->
  exists listed rest printed,
    Scores.sorted_scores scores = listed ++ rest
    /\ length listed
       = (if (top_n <? 0)%Z
          then Z.to_nat (Z.of_nat (length scores) + top_n)
          else Nat.min (Z.to_nat top_n) (length scores))
    /\ Scores.display_high_scores fromisoformat (Some scores) top_n
       = Scores.Heading top_n :: printed
    /\ length printed = length listed
    /\ (forall i e,
          listed !! i = Some e ->
          exists when,
            fromisoformat (Scores.date e) = Some when
            /\ printed !! i = Some (Scores.Line (S i) e when))
    /\ forall a b, a ∈ listed -> b ∈ rest ->
         (Scores.percentage b <= Scores.percentage a)%Q
         /\ ((Scores.percentage a == Scores.percentage b)%Q ->
             (Scores.total_time a <= Scores.total_time b)%Q).
Proof.
  intros Hne Hdates.
  set (sorted := Scores.sorted_scores scores).
  assert (Hperm : sorted ≡ₚ scores) by apply sorted_scores_Permutation.
  destruct (slice_to_take top_n sorted) as (k & Hk & Hlen).
  exists (take k sorted), (drop k sorted),
         (Scores.lines fromisoformat 1 (take k sorted)).
  assert (Hall : Forall (fun e => is_Some (fromisoformat (Scores.date e)))
                        (take k sorted)).
  { apply Forall_take. by rewrite Hperm. }
  destruct (lines_all_readable fromisoformat 1 (take k sorted) Hall)
    as [Hlines Hline].
  split; [by rewrite take_drop|]. split.
  { rewrite length_take, Hlen. by rewrite (Permutation_length Hperm). }
  split.
  { unfold Scores.display_high_scores. fold sorted. rewrite Hk.
    by destruct scores. }
  split; [done|]. split; [exact Hline|].
  intros a b [i Hi]%list_elem_of_lookup [j Hj]%list_elem_of_lookup.
  apply lookup_take_Some in Hi as [Hi Hik]. rewrite lookup_drop in Hj.
  assert (Hij : i < k + j) by lia.
  pose proof (StronglySorted_lookup _ _ _ _ _
                (sorted_scores_sorted scores) Hij Hi Hj) as [H|[H1 H2]].
  - split; [lra|]. intros He. lra.
  - split; [lra|done].
Qed.

Lemma listed_scores_are_the_best_witness :
  Scores.display_high_scores sample_format (Some sample_scores) 2
  = [Scores.Heading 2;
     Scores.Line 1 score_b "2024-05-02T11:30";
     Scores.Line 2 score_d "2024-05-04T18:45"]
  /\ exists listed rest printed,
       Scores.sorted_scores sample_scores = listed ++ rest
       /\ length listed = 2
       /\ Scores.display_high_scores sample_format (Some sample_scores) 2
          = Scores.Heading 2 :: printed
       /\ length printed = 2
       /\ (score_d ∈ listed -> score_c ∈ rest ->
           (Scores.percentage score_c <= Scores.percentage score_d)%Q).
Proof.
  split; [reflexivity|].
  destruct (listed_scores_are_the_best sample_format sample_scores 2)
    as (listed & rest & printed & Hsplit & Hlen & Hdisp & Hp & _ & Hbest).
  - discriminate.
  - repeat constructor; by eexists.
  - exists listed, rest, printed.
    split; [exact Hsplit|]. split; [exact Hlen|]. split; [exact Hdisp|].
    split; [by rewrite Hp, Hlen|].
    intros Hd Hc. exact (proj1 (Hbest score_d score_c Hd Hc)).
Defined.

Lemma sorted_scores_by_percentage_then_time_witness :
  Scores.sorted_scores sample_scores = [score_b; score_d; score_c; score_a]
  /\ (Scores.percentage score_c <= Scores.percentage score_d)%Q
  /\ ((Scores.percentage score_c == Scores.percentage score_a)%Q ->
      (Scores.total_time score_c <= Scores.total_time score_a)%Q).
Proof.
  split; [reflexivity|].
  destruct (sorted_scores_by_percentage_then_time sample_scores 1 2
              score_d score_c) as [H1 _]; [lia|reflexivity..|].
  destruct (sorted_scores_by_percentage_then_time sample_scores 2 3
              score_c score_a) as [_ H2]; [lia|reflexivity..|].
  split; [exact H1|exact H2].
Defined.

(** ** Saving a score and listing it *)

Lemma sorted_scores_new_best old new :
  Forall (fun e => Scores.key_lt e new = true) old ->
  Scores.sorted_scores (old ++ [new]) = new :: Scores.sorted_scores old.
Proof.
  induction 1 as [|a old Ha Hold IH]; [done|].
  cbn [app Scores.sorted_scores]. rewrite IH.
  cbn [Scores.insert_desc]. by rewrite Ha.
Qed.

(** X22. After [save_score], [display_high_scores] with a [top_n] that is
    at least the number of entries lists every entry of the file, the new
    one included, each once and with its rank, provided every date can be
    read: the heading is followed by one line per entry. *)
Theorem saved_score_is_listed
    fromisoformat (results : Results.t) now (f : Scores.file) top_n :
  let f' := fst (Scores.save_score results now f) in
  let old := match f with Some scores => scores | None => [] end in
  let new := {| Scores.date := now;
                Scores.score := Results.score results;
                Scores.total_questions := Results.total_questions results;
                Scores.percentage := Results.percentage results;
                Scores.total_time := Results.total_time results |} in
  Forall (fun e => is_Some (fromisoformat (Scores.date e))) (old ++ [new]) ->
  (Z.of_nat (length old) + 1 <= top_n)%Z ->
  f' = Some (old ++ [new])
  /\ exists listed,
       Scores.display_high_scores fromisoformat f' top_n
       = Scores.Heading top_n :: listed
       /\ length listed = length old + 1
       /\ exists rank when,
            fromisoformat now = Some when
            /\ listed !! rank = Some (Scores.Line (S rank) new when).
Proof.
  intros f' old new Hdates Htop.
  assert (Hf' : f' = Some (old ++ [new])) by (by destruct f).
  split; [done|]. rewrite Hf'.
  set (sorted := Scores.sorted_scores (old ++ [new])).
  assert (Hperm : sorted ≡ₚ old ++ [new]) by apply sorted_scores_Permutation.
  assert (Hslice : Scores.slice_to top_n sorted = sorted).
  { unfold Scores.slice_to. destruct (Z.ltb_spec top_n 0); [lia|].
    apply take_ge. rewrite (Permutation_length Hperm), length_app. simpl.
    lia. }
  assert (Hdisp : Scores.display_high_scores fromisoformat
                    (Some (old ++ [new])) top_n
                  = Scores.Heading top_n
                    :: Scores.lines fromisoformat 1 sorted).
  { unfold Scores.display_high_scores. fold sorted. rewrite Hslice.
    by destruct old. }
  rewrite Hdisp. eexists. split; [done|].
  assert (Hall : Forall (fun e => is_Some (fromisoformat (Scores.date e)))
                        sorted) by (by rewrite Hperm).
  destruct (lines_all_readable fromisoformat 1 sorted Hall) as [Hlen Hline].
  split.
  { rewrite Hlen, (Permutation_length Hperm), length_app. simpl. lia. }
  assert (Hin : new ∈ sorted).
  { rewrite Hperm. apply elem_of_app. right. by apply list_elem_of_singleton. }
  apply list_elem_of_lookup in Hin as [rank Hrank].
  destruct (Hline rank new Hrank) as (when & Hw & Hl).
  exists rank, when. by split.
Qed.

Lemma saved_score_is_listed_witness :
  exists listed,
    Scores.display_high_scores sample_format
      (fst (Scores.save_score perfect_results "2024-05-05T08:00:00"
                              (Some sample_scores))) 5
    = Scores.Heading 5 :: listed
    /\ length listed = 5.
Proof.
  destruct (saved_score_is_listed sample_format perfect_results
              "2024-05-05T08:00:00" (Some sample_scores) 5)
    as (_ & listed & E & Hlen & _).
  - repeat constructor; by eexists.
  - simpl. lia.
  - exists listed. split; [exact E|exact Hlen].
Defined.

(** X23. A saved score that beats every score of the file (a higher
    percentage, or the same percentage in less time) is the first line of
    [display_high_scores], for every [top_n] of at least 1. *)
Theorem new_best_score_is_listed_first
    fromisoformat (results : Results.t) now when (f : Scores.file) top_n :
  let f' := fst (Scores.save_score results now f) in
  let old := match f with Some scores => scores | None => [] end in
  let new := {| Scores.date := now;
                Scores.score := Results.score results;
                Scores.total_questions := Results.total_questions results;
                Scores.percentage := Results.percentage results;
                Scores.total_time := Results.total_time results |} in
  Forall (fun e =>
            (Scores.percentage e < Scores.percentage new)%Q
            \/ ((Scores.percentage e == Scores.percentage new)%Q
                /\ (Scores.total_time new < Scores.total_time e)%Q)) old ->
  fromisoformat now = Some when ->
  (1 <= top_n)%Z ->
  exists others,
    Scores.display_high_scores fromisoformat f' top_n
    = Scores.Heading top_n :: Scores.Line 1 new when :: others.
Proof.
  intros f' old new Hbest Hwhen Htop.
  assert (Hf' : f' = Some (old ++ [new])) by (by destruct f).
  rewrite Hf'.
  assert (Hsorted : Scores.sorted_scores (old ++ [new])
                    = new :: Scores.sorted_scores old).
  { apply sorted_scores_new_best.
    eapply Forall_impl; [|exact Hbest]. intros e He. by apply key_lt_true. }
  assert (Hslice : exists k,
             Scores.slice_to top_n (new :: Scores.sorted_scores old)
             = new :: take k (Scores.sorted_scores old)).
  { unfold Scores.slice_to. destruct (Z.ltb_spec top_n 0); [lia|].
    destruct (Z.to_nat top_n) as [|k] eqn:E; [lia|]. by exists k. }
  destruct Hslice as [k Hk].
  unfold Scores.display_high_scores. rewrite Hsorted, Hk.
  cbn [Scores.lines]. change (Scores.date new) with now. rewrite Hwhen.
  destruct old; by eexists.
Qed.

Lemma new_best_score_is_listed_first_witness :
  exists others,
    Scores.display_high_scores sample_format
      (fst (Scores.save_score perfect_results "2024-05-05T08:00:00"
                              (Some sample_scores))) 3
    = Scores.Heading 3
      :: Scores.Line 1
           {| Scores.date := "2024-05-05T08:00:00"; Scores.score := 3;
              Scores.total_questions := 3; Scores.percentage := 100;
              Scores.total_time := 20 |}
           "2024-05-05T08:00"
      :: others.
Proof.
  apply (new_best_score_is_listed_first sample_format perfect_results
           "2024-05-05T08:00:00" "2024-05-05T08:00" (Some sample_scores) 3).
  - apply Forall_cons_2; [left; reflexivity|].
    apply Forall_cons_2; [right; split; reflexivity|].
    apply Forall_cons_2; [left; reflexivity|].
    apply Forall_cons_2; [right; split; reflexivity|].
    apply Forall_nil_2.
  - reflexivity.
  - lia.
Defined.

(** X24. A date that cannot be read stops the listing: the lines of the
    entries ranked above the first such entry are printed, then the error
    line, and nothing of what ranks below it. *)
Theorem unreadable_date_cuts_the_listing
    fromisoformat rank (good : list Scores.entry) bad rest :
  Forall (fun e => is_Some (fromisoformat (Scores.date e))) good ->
  fromisoformat (Scores.date bad) = None ->
  exists shown,
    Scores.lines fromisoformat rank (good ++ bad :: rest)
    = shown ++ [Scores.ErrorLoading]
    /\ shown = Scores.lines fromisoformat rank good
    /\ length shown = length good.
Proof.
  intros Hgood Hbad. eexists. split; [|split; [reflexivity|]].
  - revert rank. induction Hgood as [|e good [when He] Hgood IH];
      intros rank; cbn [app Scores.lines].
    + by rewrite Hbad.
    + rewrite He. cbn [app]. by rewrite IH.
  - by apply lines_all_readable.
Qed.

Lemma unreadable_date_cuts_the_listing_witness :
  let broken := {| Scores.date := ""; Scores.score := 1;
                   Scores.total_questions := 5; Scores.percentage := 20;
                   Scores.total_time := 90 |} in
  Scores.lines sample_format 1 ([score_b; score_d] ++ broken :: [score_a])
  = [Scores.Line 1 score_b "2024-05-02T11:30";
     Scores.Line 2 score_d "2024-05-04T18:45";
     Scores.ErrorLoading].
Proof.
  intros broken.
  destruct (unreadable_date_cuts_the_listing sample_format 1
              [score_b; score_d] broken [score_a])
    as (shown & E & -> & _).
  - repeat constructor; by eexists.
  - reflexivity.
  - exact E.
Defined.
